(** * midi2tja: the chart conversion engine of [midi_to_tja.py]

    A shallow embedding of the timing model ([ChartState]), the measure
    quantizer ([scan_measure], [scan_chart]), the lane assignor
    ([note_on], [note_off]) and the balloon estimator of
    [src/midi_to_tja.py], with the properties of the specification stated
    over it.

    Conventions.
    - Python [int] is [Z]; list positions and [range] bounds are [nat].
    - Python exceptions are values of [exn]; a computation yields
      [Ok v], [Raise e], or [OutOfFuel] when the bound given to a
      [while] loop is used up (the only artefact of the embedding).
    - [//] on integers is floor division ([Z.div]) and raises
      [ZeroDivisionError] on a zero divisor.
    - A [ChartEvent] object is identified with its position in the list
      that holds it: [main] builds one object per message, so the objects
      of a timeline are pairwise distinct.  A reference to an event (an
      entry of [balloons], a slot of [on_notes]) is that position. *)

From Stdlib Require Import ZArith Lia Ascii String Floats.
From stdpp Require Import base option list gmap strings pretty.

Local Open Scope Z_scope.

(** ** Exceptions and outcomes *)

Inductive exn := ZeroDivisionError | IndexError | ValueError | OverflowError.

Inductive outcome (A : Type) :=
| Ok (a : A)
| Raise (e : exn)
| OutOfFuel.
Arguments Ok {A} a.
Arguments Raise {A} e.
Arguments OutOfFuel {A}.

#[global] Instance outcome_ret : MRet outcome := λ A a, Ok a.
#[global] Instance outcome_bind : MBind outcome := λ A B f m,
  match m with
  | Ok a => f a
  | Raise e => Raise e
  | OutOfFuel => OutOfFuel
  end.

(** [for x in l: s = body(s, x)] *)
Fixpoint for_each {A S : Type} (body : S → A → outcome S) (l : list A) (s : S)
  : outcome S :=
  match l with
  | [] => Ok s
  | x :: l' => s' ← body s x; for_each body l' s'
  end.

(** [a // b] *)
Definition floordiv (a b : Z) : outcome Z :=
  if decide (b = 0) then Raise ZeroDivisionError else Ok (a / b).

(** [l[i]] *)
Definition getitem {A : Type} (l : list A) (i : nat) : outcome A :=
  match l !! i with
  | Some x => Ok x
  | None => Raise IndexError
  end.

(** [l[-1]] *)
Definition getlast {A : Type} (l : list A) : outcome A :=
  match last l with
  | Some x => Ok x
  | None => Raise IndexError
  end.

(** [range(lo, hi)] *)
Definition range (lo hi : nat) : list nat := seq lo (hi - lo).

(** ** Note symbols *)

Definition LONG_NOTES : string := "5679DHI".

Definition sym_in (sym : ascii) (alphabet : string) : bool :=
  existsb (Ascii.eqb sym) (list_ascii_of_string alphabet).

Definition is_long_note (sym : ascii) : bool := sym_in sym LONG_NOTES.

(** ** Events *)

(** The four message types that reach the engine. *)
Inductive Message :=
| time_signature (numerator denominator : Z)
| set_tempo (tempo : Z)
| note_on_msg (channel note velocity : Z)
| note_off_msg (channel note velocity : Z).


Record ChartEvent := mkChartEvent {
  msg : Message;
  tick_abs : Z;
  tick_end_abs : Z;
  usec_abs : Z;
  usec_end_abs : Z
}.

(** [ChartEvent(msg, tick_abs)] with the dataclass defaults. *)
Definition new_event (m : Message) (tick : Z) : ChartEvent :=
  mkChartEvent m tick (-1) (-1) (-1).

Definition set_tick_end_abs (v : Z) (e : ChartEvent) : ChartEvent :=
  mkChartEvent (msg e) (tick_abs e) v (usec_abs e) (usec_end_abs e).
Definition set_usec_abs (v : Z) (e : ChartEvent) : ChartEvent :=
  mkChartEvent (msg e) (tick_abs e) (tick_end_abs e) v (usec_end_abs e).
Definition set_usec_end_abs (v : Z) (e : ChartEvent) : ChartEvent :=
  mkChartEvent (msg e) (tick_abs e) (tick_end_abs e) (usec_abs e) v.

(** ** Timing model *)

Record ChartState := mkChartState {
  ticks_per_beat : Z;
  tsign_upper : Z;
  tsign_lower : Z;
  usec_per_beat : Z;
  i_measure_begin : Z;
  tick_measure_begin : Z;
  tick_checkpoint : Z;
  usec_checkpoint : Z;
  balloons : option (list nat)
}.

(** [ChartState(ticks_per_beat)]; [bpm2tempo(120)] is 500000. *)
Definition init_state (tpb : Z) : ChartState :=
  mkChartState tpb 4 4 500000 0 0 0 0 None.

Definition set_tsign (upper lower : Z) (s : ChartState) : ChartState :=
  mkChartState (ticks_per_beat s) upper lower (usec_per_beat s)
    (i_measure_begin s) (tick_measure_begin s) (tick_checkpoint s)
    (usec_checkpoint s) (balloons s).
Definition set_usec_per_beat (v : Z) (s : ChartState) : ChartState :=
  mkChartState (ticks_per_beat s) (tsign_upper s) (tsign_lower s) v
    (i_measure_begin s) (tick_measure_begin s) (tick_checkpoint s)
    (usec_checkpoint s) (balloons s).
Definition set_tick_measure_begin (v : Z) (s : ChartState) : ChartState :=
  mkChartState (ticks_per_beat s) (tsign_upper s) (tsign_lower s)
    (usec_per_beat s) (i_measure_begin s) v (tick_checkpoint s)
    (usec_checkpoint s) (balloons s).
Definition set_checkpoint (tick usec : Z) (s : ChartState) : ChartState :=
  mkChartState (ticks_per_beat s) (tsign_upper s) (tsign_lower s)
    (usec_per_beat s) (i_measure_begin s) (tick_measure_begin s) tick usec
    (balloons s).
Definition set_balloons (v : option (list nat)) (s : ChartState) : ChartState :=
  mkChartState (ticks_per_beat s) (tsign_upper s) (tsign_lower s)
    (usec_per_beat s) (i_measure_begin s) (tick_measure_begin s)
    (tick_checkpoint s) (usec_checkpoint s) v.

Definition tsign (s : ChartState) : Z * Z := (tsign_upper s, tsign_lower s).


Definition sync_measure_begin_state (s : ChartState) (e : ChartEvent) : ChartState :=
  if decide (tick_abs e ≠ tick_measure_begin s) then s
  else match msg e with
       | time_signature n d => set_tsign n d s
       | set_tempo t => set_usec_per_beat t s
       | _ => s
       end.

Definition get_ticks_per_measure (s : ChartState) : outcome Z :=
  q ← floordiv (ticks_per_beat s * 4 * tsign_upper s) (tsign_lower s);
  Ok (Z.max 1 q).

Definition get_tick_measure_end (s : ChartState) : outcome Z :=
  n ← get_ticks_per_measure s;
  Ok (tick_measure_begin s + n).

Definition get_usec_at (s : ChartState) (tick : Z) : outcome Z :=
  q ← floordiv ((tick - tick_checkpoint s) * usec_per_beat s) (ticks_per_beat s);
  Ok (usec_checkpoint s + q).

Definition advance_usec (s : ChartState) (tick : Z) : outcome ChartState :=
  usec ← get_usec_at s tick;
  Ok (set_checkpoint tick usec s).

Definition advance_measure (s : ChartState) : outcome ChartState :=
  tick_end ← get_tick_measure_end s;
  Ok (set_tick_measure_begin tick_end s).

(** ** Measure quantizer *)

(** What [emit] writes.  [Cells sym n] is [emit(sym + n * '0', end='')],
    [EndLine] is [emit('')], the two directives are the [#MEASURE] and
    [#BPMCHANGE] lines (the latter kept as the tempo it is printed from:
    its text is a float [repr]), [MeasureEnd] is [emit(',')]. *)
Inductive tja_item :=
| Cells (sym : ascii) (zeros : nat)
| EndLine
| MeasureDirective (upper lower : Z)
| BpmChange (tempo : Z)
| MeasureEnd.

(** The text [print] writes for an item; [bpm_repr] stands for
    [repr(tempo2bpm(usec_per_beat))], a float formatted by the interpreter. *)
Definition newline : string := String (ascii_of_nat 10) EmptyString.

Definition zeros (n : nat) : string :=
  string_of_list_ascii (replicate n "0"%char).

Definition render_item (bpm_repr : Z → string) (item : tja_item) : string :=
  match item with
  | Cells sym n => String sym (zeros n)
  | EndLine => newline
  | MeasureDirective upper lower =>
      "#MEASURE " +:+ pretty upper +:+ "/" +:+ pretty lower +:+ newline
  | BpmChange tempo => "#BPMCHANGE " +:+ bpm_repr tempo +:+ newline
  | MeasureEnd => "," +:+ newline
  end.

Definition render (bpm_repr : Z → string) (out : list tja_item) : string :=
  foldr (λ item text, render_item bpm_repr item +:+ text) EmptyString out.

(** The sink [tja : Optional[IO]]: [None] is the silent scan, [Some out]
    a file holding [out]. *)
Definition sink := option (list tja_item).

Definition emit (item : tja_item) (tja : sink) : sink :=
  (λ out, out ++ [item]) <$> tja.

(** The locals [tick_beg], [tick_end], [tick_gcd] and the range of one
    call of [scan_measure], kept to state where measures begin and end. *)
Record measure_info := mkMeasure {
  m_tick_beg : Z;
  m_tick_end : Z;
  m_tick_gcd : Z;
  m_start : nat;
  m_stop : nat
}.

(** The variables the event loop of [scan_measure] works on: [self],
    the event objects, the sink, and the locals [is_line_start],
    [idiv_last], [note_symbol_last]. *)
Record frame := mkFrame {
  f_self : ChartState;
  f_events : list ChartEvent;
  f_tja : sink;
  is_line_start : bool;
  idiv_last : Z;
  note_symbol_last : ascii
}.

Definition ensure_line_start (f : frame) : frame :=
  mkFrame (f_self f) (f_events f)
    (if is_line_start f then f_tja f else emit EndLine (f_tja f))
    true (idiv_last f) (note_symbol_last f).

Definition emit_line (item : tja_item) (f : frame) : frame :=
  mkFrame (f_self f) (f_events f) (emit item (f_tja f))
    (is_line_start f) (idiv_last f) (note_symbol_last f).

Definition with_self (s : ChartState) (f : frame) : frame :=
  mkFrame s (f_events f) (f_tja f) (is_line_start f) (idiv_last f)
    (note_symbol_last f).

Definition with_events (evs : list ChartEvent) (f : frame) : frame :=
  mkFrame (f_self f) evs (f_tja f) (is_line_start f) (idiv_last f)
    (note_symbol_last f).

Definition with_symbol (sym : ascii) (f : frame) : frame :=
  mkFrame (f_self f) (f_events f) (f_tja f) (is_line_start f) (idiv_last f)
    sym.

(** [if idiv > idiv_last: emit(note_symbol_last + (idiv - idiv_last - 1) * '0', end=''); ...] *)
Definition advance_cells (idiv : Z) (f : frame) : frame :=
  if decide (idiv > idiv_last f) then
    mkFrame (f_self f) (f_events f)
      (emit (Cells (note_symbol_last f) (Z.to_nat (idiv - idiv_last f - 1)))
         (f_tja f))
      false idiv "0"%char
  else f.

(** [self.balloons is not None and self.balloons[-1].usec_end_abs < 0] *)
Definition balloon_is_open (s : ChartState) (evs : list ChartEvent) : outcome bool :=
  match balloons s with
  | None => Ok false
  | Some bs =>
      b ← getlast bs;
      e ← getitem evs b;
      Ok (bool_decide (usec_end_abs e < 0))
  end.

(** [tick_rels[l]] compared with the following entries, the kept ones
    written back: the in-place removal of consecutive duplicates. *)
Fixpoint skip_equal (kept : Z) (rest : list Z) : list Z :=
  match rest with
  | [] => []
  | x :: rest' =>
      if decide (x ≠ kept) then x :: skip_equal x rest'
      else skip_equal kept rest'
  end.

Definition remove_duplications (tick_rels : list Z) : list Z :=
  match tick_rels with
  | [] => []
  | x :: rest => x :: skip_equal x rest
  end.

(** [math.gcd] of all entries of [xs] (0 for none) *)
Definition gcd_all (xs : list Z) : Z := foldr Z.gcd 0 xs.

(** [[events[i].tick_abs - tick_beg for i in ievents if events[i].tick_abs > tick_beg]] *)
Fixpoint collect_tick_rels (evs : list ChartEvent) (tick_beg : Z)
    (ievents : list nat) : outcome (list Z) :=
  match ievents with
  | [] => Ok []
  | i :: rest =>
      e ← getitem evs i;
      r ← collect_tick_rels evs tick_beg rest;
      Ok (if decide (tick_abs e > tick_beg)
          then (tick_abs e - tick_beg) :: r else r)
  end.

(** [self.advance_usec(e.tick_abs); self.usec_per_beat = e.msg.tempo],
    the re-anchoring done at a tempo change. *)
Definition change_tempo (s : ChartState) (tick tempo : Z) : outcome ChartState :=
  s' ← advance_usec s tick;
  Ok (set_usec_per_beat tempo s').

(** The variables of [scan_chart]: [self], the event objects, the sink,
    the local [i_measure_begin], and the measures flushed so far. *)
Record chart := mkChart {
  c_self : ChartState;
  c_events : list ChartEvent;
  c_tja : sink;
  c_i_measure_begin : nat;
  c_measures : list measure_info
}.

(** ** What a scan relies on and what it leaves alone *)

(** The fields of the events no scan writes: message, tick, end tick. *)
Definition timeline (evs : list ChartEvent) : list (Message * Z * Z) :=
  (λ e, (msg e, tick_abs e, tick_end_abs e)) <$> evs.

(** Every reference held in [balloons] points into the event list, and
    the list, once created, is never empty. *)
Definition valid_balloons (s : ChartState) (evs : list ChartEvent) : Prop :=
  match balloons s with
  | None => True
  | Some bs => bs ≠ [] ∧ Forall (λ b, (b < length evs)%nat) bs
  end.

(** No time signature of the timeline has denominator zero. *)
Definition denominators_nonzero (evs : list ChartEvent) : Prop :=
  ∀ i e n d, evs !! i = Some e → msg e = time_signature n d → d ≠ 0.

(** The same, as a test that can be run on a given timeline. *)
Definition denominators_nonzero_b (evs : list ChartEvent) : bool :=
  forallb (λ e, match msg e with
                | time_signature _ d => negb (d =? 0)
                | _ => true
                end) evs.

(** The conditions under which no division by zero and no bad index can
    occur in a scan. *)
Definition runnable (s : ChartState) (evs : list ChartEvent) : Prop :=
  ticks_per_beat s ≠ 0 ∧ tsign_lower s ≠ 0 ∧
  valid_balloons s evs ∧ denominators_nonzero evs.

(** The part of a frame a loop of event steps leaves alone. *)
Definition frame_kept (f f' : frame) : Prop :=
  timeline (f_events f') = timeline (f_events f) ∧
  ticks_per_beat (f_self f') = ticks_per_beat (f_self f) ∧
  tick_measure_begin (f_self f') = tick_measure_begin (f_self f) ∧
  i_measure_begin (f_self f') = i_measure_begin (f_self f) ∧
  (runnable (f_self f) (f_events f) → runnable (f_self f') (f_events f')).

(** What the loop of [scan_chart] leaves alone; the measure cursor only
    moves forward. *)
Definition chart_kept (c c' : chart) : Prop :=
  timeline (c_events c') = timeline (c_events c) ∧
  ticks_per_beat (c_self c') = ticks_per_beat (c_self c) ∧
  tick_measure_begin (c_self c) ≤ tick_measure_begin (c_self c') ∧
  (runnable (c_self c) (c_events c) → runnable (c_self c') (c_events c')).

(** A number of tests of the [while] condition that no event of the
    timeline can need: the cursor moves by at least one tick per flush. *)
Definition fuel_for (s : ChartState) (evs : list ChartEvent) : nat :=
  S (Z.to_nat (foldr Z.max 0 ((λ e, tick_abs e - tick_measure_begin s) <$> evs))).

(** The bound on the loop tests holds at every event of the scan. *)
Definition fuel_suffices (fuel : nat) (c : chart) : Prop :=
  ∀ e, e ∈ c_events c →
    (Z.to_nat (tick_abs e - tick_measure_begin (c_self c)) < fuel)%nat.





Section Scan.

(** The global [NOTE_SYMBOL], fixed before any scan begins. *)
Variable NOTE_SYMBOL : ascii.

(** The event branches of the loop of [scan_measure], for the event at
    position [ievent]. *)
Definition scan_branch (ievent : nat) (e : ChartEvent) (f : frame) : outcome frame :=
  match msg e with
  | time_signature n d =>
      let f := with_self (set_tsign n d (f_self f)) f in
      Ok (emit_line (MeasureDirective n d) (ensure_line_start f))
  | set_tempo t =>
      s ← change_tempo (f_self f) (tick_abs e) t;
      Ok (emit_line (BpmChange t) (ensure_line_start (with_self s f)))
  | note_on_msg _ _ _ =>
      if negb (is_long_note NOTE_SYMBOL) then
        usec ← get_usec_at (f_self f) (tick_abs e);
        let e' := set_usec_end_abs (-1) (set_usec_abs usec e) in
        Ok (with_events (<[ievent := e']> (f_events f))
              (with_symbol NOTE_SYMBOL f))
      else
        opened ← balloon_is_open (f_self f) (f_events f);
        if negb opened then
          usec ← get_usec_at (f_self f) (tick_abs e);
          let e' := set_usec_end_abs (-1) (set_usec_abs usec e) in
          let bs := default [] (balloons (f_self f)) ++ [ievent] in
          Ok (with_self (set_balloons (Some bs) (f_self f))
                (with_events (<[ievent := e']> (f_events f))
                   (with_symbol NOTE_SYMBOL f)))
        else Ok f
  | note_off_msg _ _ _ =>
      if is_long_note NOTE_SYMBOL then
        opened ← balloon_is_open (f_self f) (f_events f);
        if (opened : bool) then
          b ← getlast (default [] (balloons (f_self f)));
          be ← getitem (f_events f) b;
          usec ← get_usec_at (f_self f) (tick_abs e);
          Ok (with_events (<[b := set_usec_end_abs usec be]> (f_events f))
                (with_symbol "8"%char f))
        else Ok f
      else Ok f
  end.

(** The branches of [scan_branch] that return, one constructor per path
    through the [if]/[elif] chain, with what each path needs. *)
Inductive branch_taken (ievent : nat) (e : ChartEvent) (f : frame) : frame → Prop :=
| branch_time_signature n d :
    msg e = time_signature n d →
    branch_taken ievent e f
      (emit_line (MeasureDirective n d)
         (ensure_line_start (with_self (set_tsign n d (f_self f)) f)))
| branch_set_tempo t s :
    msg e = set_tempo t →
    change_tempo (f_self f) (tick_abs e) t = Ok s →
    branch_taken ievent e f
      (emit_line (BpmChange t) (ensure_line_start (with_self s f)))
| branch_hit ch n v usec :
    msg e = note_on_msg ch n v →
    is_long_note NOTE_SYMBOL = false →
    get_usec_at (f_self f) (tick_abs e) = Ok usec →
    branch_taken ievent e f
      (with_events
         (<[ievent := set_usec_end_abs (-1) (set_usec_abs usec e)]> (f_events f))
         (with_symbol NOTE_SYMBOL f))
| branch_open ch n v usec :
    msg e = note_on_msg ch n v →
    is_long_note NOTE_SYMBOL = true →
    balloon_is_open (f_self f) (f_events f) = Ok false →
    get_usec_at (f_self f) (tick_abs e) = Ok usec →
    branch_taken ievent e f
      (with_self
         (set_balloons (Some (default [] (balloons (f_self f)) ++ [ievent]))
            (f_self f))
         (with_events
            (<[ievent := set_usec_end_abs (-1) (set_usec_abs usec e)]> (f_events f))
            (with_symbol NOTE_SYMBOL f)))
| branch_open_ignored ch n v :
    msg e = note_on_msg ch n v →
    is_long_note NOTE_SYMBOL = true →
    balloon_is_open (f_self f) (f_events f) = Ok true →
    branch_taken ievent e f f
| branch_close ch n v bs b be usec :
    msg e = note_off_msg ch n v →
    is_long_note NOTE_SYMBOL = true →
    balloons (f_self f) = Some bs →
    last bs = Some b →
    f_events f !! b = Some be →
    usec_end_abs be < 0 →
    get_usec_at (f_self f) (tick_abs e) = Ok usec →
    branch_taken ievent e f
      (with_events (<[b := set_usec_end_abs usec be]> (f_events f))
         (with_symbol "8"%char f))
| branch_close_ignored ch n v :
    msg e = note_off_msg ch n v →
    (is_long_note NOTE_SYMBOL = false ∨
     balloon_is_open (f_self f) (f_events f) = Ok false) →
    branch_taken ievent e f f.

(** One iteration of [for ievent in ievents] in [scan_measure]. *)
Definition scan_event (tick_beg tick_gcd : Z) (f : frame) (ievent : nat)
  : outcome frame :=
  e ← getitem (f_events f) ievent;
  idiv ← floordiv (tick_abs e - tick_beg) tick_gcd;
  scan_branch ievent e (advance_cells idiv f).

Definition scan_measure (s : ChartState) (evs : list ChartEvent)
    (start stop : nat) (tja : sink)
  : outcome (ChartState * list ChartEvent * sink * measure_info) :=
  let tick_beg := tick_measure_begin s in
  tick_end ← get_tick_measure_end s;
  rels ← collect_tick_rels evs tick_beg (range start stop);
  let tick_rels := remove_duplications (rels ++ [tick_end - tick_beg]) in
  let tick_gcd := gcd_all tick_rels in
  f ← for_each (scan_event tick_beg tick_gcd) (range start stop)
        (mkFrame s evs tja true 0 "0"%char);
  idiv ← floordiv (tick_end - tick_beg) tick_gcd;
  let tja :=
    if decide ((start < stop)%nat ∧ idiv > idiv_last f) then
      emit (Cells (note_symbol_last f) (Z.to_nat (idiv - idiv_last f - 1)))
        (f_tja f)
    else f_tja f in
  Ok (f_self f, f_events f, emit MeasureEnd tja,
      mkMeasure tick_beg tick_end tick_gcd start stop).

(** [while self.get_tick_measure_end() <= e.tick_abs: ...] for the event
    at position [i]; [fuel] bounds the number of tests of the condition. *)
Fixpoint flush_measures (fuel : nat) (tick : Z) (i : nat) (c : chart)
  : outcome chart :=
  match fuel with
  | O => OutOfFuel
  | S fuel' =>
      tick_end ← get_tick_measure_end (c_self c);
      if decide (tick_end <= tick) then
        r ← scan_measure (c_self c) (c_events c) (c_i_measure_begin c) i (c_tja c);
        let '(s, evs, tja, m) := r in
        s' ← advance_measure s;
        flush_measures fuel' tick i (mkChart s' evs tja i (c_measures c ++ [m]))
      else Ok c
  end.

(** [if e.tick_abs == self.tick_measure_begin: if e.msg.type == 'time_signature': ...] *)
Definition sync_tsign (e : ChartEvent) (s : ChartState) : ChartState :=
  if decide (tick_abs e = tick_measure_begin s) then
    match msg e with
    | time_signature n d => set_tsign n d s
    | _ => s
    end
  else s.

(** One iteration of [for i, e in enumerate(events)] in [scan_chart]. *)
Definition scan_chart_event (fuel : nat) (c : chart) (i : nat) : outcome chart :=
  e ← getitem (c_events c) i;
  c' ← flush_measures fuel (tick_abs e) i c;
  Ok (mkChart (sync_tsign e (c_self c')) (c_events c') (c_tja c')
        (c_i_measure_begin c') (c_measures c')).

Definition scan_chart (fuel : nat) (s : ChartState) (evs : list ChartEvent)
    (tja : sink)
  : outcome (ChartState * list ChartEvent * sink * list measure_info) :=
  c ← for_each (scan_chart_event fuel) (range 0 (length evs))
        (mkChart s evs tja 0 []);
  r ← scan_measure (c_self c) (c_events c) (c_i_measure_begin c)
        (length evs) (c_tja c);
  let '(s', evs', tja', m) := r in
  Ok (s', evs', tja', c_measures c ++ [m]).

End Scan.


(** ** Balloon records during a scan *)

(** The record referenced by [b] is closed: its [usec_end_abs] is set. *)
Definition terminated (evs : list ChartEvent) (b : nat) : Prop :=
  ∃ e, evs !! b = Some e ∧ 0 ≤ usec_end_abs e.

(** The record referenced by [b] is open: [usec_end_abs < 0]. *)
Definition unterminated (evs : list ChartEvent) (b : nat) : Prop :=
  ∃ e, evs !! b = Some e ∧ usec_end_abs e < 0.

(** At most one record of [balloons] is unterminated, and it is the last. *)
Definition one_open_balloon_at_most (s : ChartState) (evs : list ChartEvent) : Prop :=
  ∀ bs, balloons s = Some bs →
    bs ≠ [] ∧ NoDup bs ∧
    ∀ k b, bs !! k = Some b → unterminated evs b → S k = length bs.

(** The timeline is in ascending tick order. *)
Definition sorted_timeline (evs : list ChartEvent) : Prop :=
  ∀ i j ei ej, (i ≤ j)%nat → evs !! i = Some ei → evs !! j = Some ej →
               tick_abs ei ≤ tick_abs ej.

(** Tempos are unsigned. *)
Definition tempos_nonneg (evs : list ChartEvent) : Prop :=
  ∀ i e t, evs !! i = Some e → msg e = set_tempo t → 0 ≤ t.

(** The state a scan of [main] starts from: a copy of the baseline
    [ChartState], which holds no balloon list and is anchored at or before
    the first tick. *)
Definition scan_start (s : ChartState) (evs : list ChartEvent) : Prop :=
  balloons s = None ∧ 0 < ticks_per_beat s ∧ 0 ≤ usec_per_beat s ∧
  0 ≤ usec_checkpoint s ∧
  ∀ e, e ∈ evs → tick_checkpoint s ≤ tick_abs e.

(** The states and event objects a scan passes through, with the number
    of events already taken by the loop of [scan_measure]: every step that
    writes [self] or an event is one of the three below. *)
Inductive scan_reaches (sym : ascii) (s0 : ChartState) (evs0 : list ChartEvent)
  : nat → ChartState → list ChartEvent → Prop :=
| reaches_start : scan_reaches sym s0 evs0 0 s0 evs0
| reaches_event i tick_beg tick_gcd f f' :
    scan_reaches sym s0 evs0 i (f_self f) (f_events f) →
    scan_event sym tick_beg tick_gcd f i = Ok f' →
    scan_reaches sym s0 evs0 (S i) (f_self f') (f_events f')
| reaches_sync i s evs e :
    scan_reaches sym s0 evs0 i s evs →
    scan_reaches sym s0 evs0 i (sync_tsign e s) evs
| reaches_advance i s evs s' :
    scan_reaches sym s0 evs0 i s evs →
    advance_measure s = Ok s' →
    scan_reaches sym s0 evs0 i s' evs.

(** The invariant behind it, with the position [i] of the next event:
    the records are distinct events already taken, all but the last are
    terminated, and the anchor lies at or before every event to come. *)
Definition scan_inv (evs0 : list ChartEvent) (i : nat) (s : ChartState)
    (evs : list ChartEvent) : Prop :=
  timeline evs = timeline evs0 ∧
  (match balloons s with
   | None => True
   | Some bs =>
       bs ≠ [] ∧ NoDup bs ∧ Forall (λ b, (b < i)%nat) bs ∧
       ∀ k b, bs !! k = Some b → (S k < length bs)%nat → terminated evs b
   end) ∧
  0 < ticks_per_beat s ∧ 0 ≤ usec_per_beat s ∧ 0 ≤ usec_checkpoint s ∧
  ∀ j e, (i ≤ j)%nat → evs !! j = Some e → tick_checkpoint s ≤ tick_abs e.

(** ** Two scans of one timeline *)






(** The number of balloon-close symbols placed: the cell runs that begin
    with [8] (the other cells of a run are [0]). *)
Definition is_close_cell (item : tja_item) : bool :=
  match item with
  | Cells sym _ => Ascii.eqb sym "8"
  | _ => false
  end.

Definition count_closes (out : list tja_item) : nat :=
  length (filter (λ item, is_close_cell item = true) out).




(** ** Lane assignor *)


Definition msg_note (m : Message) : option Z :=
  match m with
  | note_on_msg _ n _ | note_off_msg _ n _ => Some n
  | _ => None
  end.

(** The variables of [main] the lane assignor works on.  [notes] holds
    the [ChartEvent] objects made by [note_on], each at the position it
    was made at; [on_notes] and [note_events] hold references to them, so
    that a note cut or closed through a slot of [on_notes] is seen cut or
    closed in its lane.  The order of the keys of [note_events] is not
    kept. *)
Record Lanes := mkLanes {
  notes : list ChartEvent;
  on_notes : gmap Z (list nat);
  note_events : gmap (Z * nat) (list nat)
}.

Definition no_lanes : Lanes := mkLanes [] ∅ ∅.

(** [note_events.setdefault(key, []).append(event)] *)
Definition append_to_lane (key : Z * nat) (a : nat)
    (lanes : gmap (Z * nat) (list nat)) : gmap (Z * nat) (list nat) :=
  <[key := default [] (lanes !! key) ++ [a]]> lanes.

(** The copy [e_] of a slot's occupant [e] that [note_on] examines: cut
    when it plays the note that starts at [tick]. *)
Definition cut_same_note (ticks_gap note tick : Z) (e : ChartEvent) : ChartEvent :=
  if decide (msg_note (msg e) = Some note) then
    let e1 := if decide (usec_end_abs e = -1)
              then set_usec_end_abs (-2) (set_tick_end_abs tick e)
              else e in
    set_tick_end_abs
      (Z.max (tick_abs e1 + ticks_gap) (Z.min (tick_end_abs e1) (tick - ticks_gap)))
      e1
  else e.

(** [e_.usec_end_abs != -1 and tick > e_.tick_end_abs] *)
Definition is_free (tick : Z) (e_ : ChartEvent) : Prop :=
  usec_end_abs e_ ≠ -1 ∧ tick > tick_end_abs e_.

#[global] Instance is_free_dec tick e_ : Decision (is_free tick e_).
Proof. unfold is_free. apply _. Defined.

(** [for i, e in enumerate(channel_on_notes)] up to the [break]: the
    first free slot from position [i] on, with its occupant's reference
    and examined copy.  (A slot always refers to an object of [notes].) *)
Fixpoint find_free_slot (store : list ChartEvent) (ticks_gap note tick : Z)
    (slots : list nat) (i : nat) : option (nat * nat * ChartEvent) :=
  match slots with
  | [] => None
  | b :: rest =>
      match store !! b with
      | Some e =>
          let e_ := cut_same_note ticks_gap note tick e in
          if decide (is_free tick e_) then Some (i, b, e_)
          else find_free_slot store ticks_gap note tick rest (S i)
      | None => find_free_slot store ticks_gap note tick rest (S i)
      end
  end.

Section Assign.

Variable NOTE_SYMBOL : ascii.
Variable ticks_gap : Z.

Definition note_on (ch note vel tick : Z) (L : Lanes) : Lanes :=
  let channel_on_notes := default [] (on_notes L !! ch) in
  let event := mkChartEvent (note_on_msg ch note vel) tick (tick + ticks_gap) (-1) (-1) in
  let a := length (notes L) in
  match find_free_slot (notes L) ticks_gap note tick channel_on_notes 0 with
  | Some (i, b, e_) =>
      let cut e := set_usec_end_abs (usec_end_abs e_)
                     (set_tick_end_abs (tick_end_abs e_) e) in
      mkLanes (alter cut b (notes L) ++ [event])
        (<[ch := <[i := a]> channel_on_notes]> (on_notes L))
        (if is_long_note NOTE_SYMBOL || bool_decide (i = 0%nat)
         then append_to_lane (ch, i) a (note_events L) else note_events L)
  | None =>
      let polypos := length channel_on_notes in
      mkLanes (notes L ++ [event])
        (<[ch := if is_long_note NOTE_SYMBOL
                 then channel_on_notes ++ [a] else channel_on_notes]> (on_notes L))
        (if is_long_note NOTE_SYMBOL || bool_decide (polypos = 0%nat)
         then append_to_lane (ch, polypos) a (note_events L) else note_events L)
  end.

(** [e.usec_end_abs == -1 and e.msg.note == msg.note] *)
Definition is_open_note (store : list ChartEvent) (note : Z) (b : nat) : bool :=
  match store !! b with
  | Some e => bool_decide (usec_end_abs e = -1 ∧ msg_note (msg e) = Some note)
  | None => false
  end.

Definition note_off (ch note tick : Z) (L : Lanes) : Lanes :=
  match on_notes L !! ch with
  | None => L
  | Some channel_on_notes =>
      match list_find (λ b, is_open_note (notes L) note b = true)
              (reverse channel_on_notes) with
      | Some (_, b) =>
          let close e := set_usec_end_abs (-2)
                           (set_tick_end_abs (Z.max (tick_abs e + ticks_gap) tick) e) in
          mkLanes (alter close b (notes L)) (on_notes L) (note_events L)
      | None => L
      end
  end.

(** One iteration of [for e in raw_note_events]. *)
Definition note_step (L : Lanes) (e : ChartEvent) : Lanes :=
  match msg e with
  | note_on_msg ch n v =>
      if decide (v > 0) then
        let L := note_on ch n v (tick_abs e) L in
        if is_long_note NOTE_SYMBOL then L else note_off ch n (tick_abs e) L
      else if is_long_note NOTE_SYMBOL then note_off ch n (tick_abs e) L
      else L
  | note_off_msg ch n v =>
      if is_long_note NOTE_SYMBOL then note_off ch n (tick_abs e) L else L
  | _ => L
  end.

Definition assign_lanes (raw_note_events : list ChartEvent) : Lanes :=
  foldl note_step no_lanes raw_note_events.





End Assign.



(** ** The per-lane pipeline of [main] *)





(** ** Balloon estimator *)




Section Balloons.

(** [math.pow], the C library's: taken as given. *)
Variable pow : float → float → float.




End Balloons.
(* ===================================================================== *)
(** * Properties *)

(** ** Reasoning about outcomes *)

Lemma bind_Ok {A B : Type} (m : outcome A) (k : A → outcome B) (b : B) :
  m ≫= k = Ok b → ∃ a, m = Ok a ∧ k a = Ok b.
Proof. destruct m as [a | e |]; simpl; [eauto | discriminate..]. Qed.

Lemma bind_not_OutOfFuel {A B : Type} (m : outcome A) (k : A → outcome B) :
  m ≠ OutOfFuel → (∀ a, m = Ok a → k a ≠ OutOfFuel) → m ≫= k ≠ OutOfFuel.
Proof. destruct m as [a | e |]; simpl; [eauto | discriminate | congruence]. Qed.

Lemma Ok_inj {A : Type} (a b : A) : Ok a = Ok b → a = b.
Proof. congruence. Qed.

Ltac inv_ok H :=
  repeat match type of H with
  | _ ≫= _ = Ok _ =>
      let a := fresh "a" in let Ha := fresh "Ha" in let H' := fresh in
      destruct (bind_Ok _ _ _ H) as (a & Ha & H'); clear H; rename H' into H
  | Ok _ = Ok _ => apply Ok_inj in H
  | Raise _ = Ok _ => discriminate H
  | OutOfFuel = Ok _ => discriminate H
  end.

Ltac inv_oks :=
  repeat match goal with
  | H : _ ≫= _ = Ok _ |- _ =>
      let a := fresh "a" in let Ha := fresh "Ha" in let H' := fresh "Hk" in
      destruct (bind_Ok _ _ _ H) as (a & Ha & H'); clear H
  | H : Ok _ = Ok _ |- _ => apply Ok_inj in H
  | H : Raise _ = Ok _ |- _ => discriminate H
  | H : OutOfFuel = Ok _ |- _ => discriminate H
  end.

Lemma floordiv_Ok a b q : floordiv a b = Ok q ↔ b ≠ 0 ∧ q = a / b.
Proof.
  unfold floordiv. case_decide; split; intros Hq; try discriminate.
  - tauto.
  - injection Hq as <-. done.
  - destruct Hq as [_ ->]. done.
Qed.

Lemma floordiv_not_OutOfFuel a b : floordiv a b ≠ OutOfFuel.
Proof. unfold floordiv. case_decide; discriminate. Qed.

Lemma getitem_Ok {A : Type} (l : list A) i x : getitem l i = Ok x ↔ l !! i = Some x.
Proof. unfold getitem. destruct (l !! i); split; congruence. Qed.

Lemma getitem_not_OutOfFuel {A : Type} (l : list A) i : getitem l i ≠ OutOfFuel.
Proof. unfold getitem. destruct (l !! i); discriminate. Qed.

Lemma getlast_Ok {A : Type} (l : list A) x : getlast l = Ok x ↔ last l = Some x.
Proof. unfold getlast. destruct (last l); split; congruence. Qed.

Lemma getlast_not_OutOfFuel {A : Type} (l : list A) : getlast l ≠ OutOfFuel.
Proof. unfold getlast. destruct (last l); discriminate. Qed.


(** An invariant carried through a loop. *)
Lemma for_each_invariant {A S : Type} (P : S → Prop) (body : S → A → outcome S) l s s' :
  (∀ s x s', x ∈ l → P s → body s x = Ok s' → P s') →
  P s → for_each body l s = Ok s' → P s'.
Proof.
  revert s; induction l as [|x l IH]; intros s Hstep HP H; simpl in H.
  - by injection H as <-.
  - inv_ok H. eapply IH; [| |exact H].
    + intros ? ? ? ?. apply Hstep. by right.
    + eapply Hstep; [by left| |]; eauto.
Qed.

Lemma for_each_not_OutOfFuel {A S : Type} (body : S → A → outcome S) l s :
  (∀ s x, body s x ≠ OutOfFuel) → for_each body l s ≠ OutOfFuel.
Proof.
  intros Hb; revert s; induction l as [|x l IH]; intros s; simpl; [done|].
  apply bind_not_OutOfFuel; auto.
Qed.

Lemma range_S lo hi : (lo ≤ hi)%nat → range lo (S hi) = range lo hi ++ [hi].
Proof.
  intros H. unfold range. replace (S hi - lo)%nat with (S (hi - lo)) by lia.
  rewrite seq_S. do 2 f_equal. lia.
Qed.

Lemma elem_of_range i lo hi : i ∈ range lo hi ↔ (lo ≤ i < hi)%nat.
Proof. unfold range. rewrite elem_of_seq. lia. Qed.

Lemma range_empty lo hi : (hi ≤ lo)%nat → range lo hi = [].
Proof. intros H. unfold range. by replace (hi - lo)%nat with 0%nat by lia. Qed.

(** ** Timing model *)

Lemma get_ticks_per_measure_Ok s n :
  get_ticks_per_measure s = Ok n ↔
  tsign_lower s ≠ 0 ∧
  n = Z.max 1 (ticks_per_beat s * 4 * tsign_upper s / tsign_lower s).
Proof.
  unfold get_ticks_per_measure, floordiv.
  case_decide; simpl; split; intros Hn; try discriminate; try tauto.
  - split; [done | congruence].
  - destruct Hn as [_ ->]. done.
Qed.

Lemma get_ticks_per_measure_safe s :
  tsign_lower s ≠ 0 → ∃ n, get_ticks_per_measure s = Ok n ∧ 1 ≤ n.
Proof.
  intros Hd. eexists; split; [by apply get_ticks_per_measure_Ok | lia].
Qed.

Lemma get_tick_measure_end_Ok s t :
  get_tick_measure_end s = Ok t ↔
  ∃ n, get_ticks_per_measure s = Ok n ∧ t = tick_measure_begin s + n.
Proof.
  unfold get_tick_measure_end. split.
  - intros H. inv_ok H. eauto.
  - intros (n & -> & ->). done.
Qed.

Lemma get_usec_at_Ok s tick u :
  get_usec_at s tick = Ok u ↔
  ticks_per_beat s ≠ 0 ∧
  u = usec_checkpoint s + (tick - tick_checkpoint s) * usec_per_beat s / ticks_per_beat s.
Proof.
  unfold get_usec_at, floordiv.
  case_decide; simpl; split; intros Hu; try discriminate; try tauto.
  - split; [done | congruence].
  - destruct Hu as [_ ->]. done.
Qed.

Lemma change_tempo_Ok s tick tempo s' :
  change_tempo s tick tempo = Ok s' ↔
  ∃ u, get_usec_at s tick = Ok u ∧
       s' = set_usec_per_beat tempo (set_checkpoint tick u s).
Proof.
  unfold change_tempo, advance_usec. split.
  - intros H. inv_oks. subst. eauto.
  - intros (u & -> & ->). done.
Qed.

Lemma advance_measure_Ok s s' :
  advance_measure s = Ok s' ↔
  ∃ n, get_ticks_per_measure s = Ok n ∧
       s' = set_tick_measure_begin (tick_measure_begin s + n) s.
Proof.
  unfold advance_measure, get_tick_measure_end. split.
  - intros H. inv_oks. subst. eauto.
  - intros (n & -> & ->). done.
Qed.

Lemma gcd_all_nonneg xs : 0 ≤ gcd_all xs.
Proof. destruct xs; simpl; [lia | apply Z.gcd_nonneg]. Qed.

Lemma gcd_all_divide xs x : x ∈ xs → (gcd_all xs | x).
Proof.
  induction xs as [|y xs IH]; intros Hx; [by apply elem_of_nil in Hx|].
  apply elem_of_cons in Hx as [-> | Hx]; simpl.
  - apply Z.gcd_divide_l.
  - etransitivity; [apply Z.gcd_divide_r | auto].
Qed.

Lemma gcd_all_greatest xs d : (∀ x, x ∈ xs → (d | x)) → (d | gcd_all xs).
Proof.
  induction xs as [|y xs IH]; intros Hd; simpl.
  - apply Z.divide_0_r.
  - apply Z.gcd_greatest; [apply Hd; by left|].
    apply IH. intros x Hx. apply Hd. by right.
Qed.

Lemma elem_of_skip_equal kept rest x :
  x ∈ skip_equal kept rest → x ∈ rest.
Proof.
  revert kept; induction rest as [|y rest IH]; intros kept; simpl; [done|].
  case_decide.
  - rewrite !elem_of_cons. intros [-> | Hx]; eauto.
  - intros Hx. right. eauto.
Qed.

Lemma elem_of_skip_equal_2 kept rest x :
  x ∈ rest → x = kept ∨ x ∈ skip_equal kept rest.
Proof.
  revert kept; induction rest as [|y rest IH]; intros kept Hx; simpl.
  - by apply elem_of_nil in Hx.
  - apply elem_of_cons in Hx as [-> | Hx]; case_decide.
    + right. by left.
    + left. by destruct (decide (y = kept)).
    + destruct (IH y Hx) as [-> | ?]; right; [by left | by right].
    + auto.
Qed.

(** Removing consecutive duplicates keeps the set of entries. *)
Lemma elem_of_remove_duplications xs x :
  x ∈ remove_duplications xs ↔ x ∈ xs.
Proof.
  destruct xs as [|y xs]; simpl; [done|]. rewrite !elem_of_cons. split.
  - intros [-> | Hx]; [by left | right; by eapply elem_of_skip_equal].
  - intros [-> | Hx]; [by left|].
    destruct (elem_of_skip_equal_2 y xs x Hx); auto.
Qed.

Lemma gcd_all_remove_duplications xs :
  gcd_all (remove_duplications xs) = gcd_all xs.
Proof.
  apply Z.divide_antisym_nonneg; try apply gcd_all_nonneg.
  - apply gcd_all_greatest. intros x Hx. apply gcd_all_divide.
    by apply elem_of_remove_duplications in Hx.
  - apply gcd_all_greatest. intros x Hx. apply gcd_all_divide.
    by apply elem_of_remove_duplications.
Qed.

Lemma gcd_all_snoc_pos xs len : 0 < len → 0 < gcd_all (xs ++ [len]).
Proof.
  intros Hlen.
  assert (Hd : (gcd_all (xs ++ [len]) | len)).
  { apply gcd_all_divide. apply elem_of_app. right. by left. }
  pose proof (gcd_all_nonneg (xs ++ [len])) as Hn.
  destruct (decide (gcd_all (xs ++ [len]) = 0)) as [H0|]; [|lia].
  rewrite H0 in Hd. apply Z.divide_0_l in Hd. lia.
Qed.

(** ** Measures flushed with an empty event range *)

Lemma scan_measure_empty sym s evs start stop tja len :
  (stop ≤ start)%nat →
  get_ticks_per_measure s = Ok len →
  scan_measure sym s evs start stop tja =
    Ok (s, evs, emit MeasureEnd tja,
        mkMeasure (tick_measure_begin s) (tick_measure_begin s + len) len
          start stop).
Proof.
  intros Hrange Hlen.
  assert (1 ≤ len) by (apply get_ticks_per_measure_Ok in Hlen; lia).
  unfold scan_measure, get_tick_measure_end. rewrite Hlen. simpl.
  rewrite range_empty by done. simpl.
  replace (tick_measure_begin s + len - tick_measure_begin s) with len by lia.
  rewrite Z.gcd_0_r, Z.abs_eq by lia.
  unfold floordiv. case_decide; [lia|]. simpl.
  case_decide as Hc; [lia|]. done.
Qed.

(** C5, as the code has it: a measure flushed with an empty event range
    is written as the bare terminator [,] with no cell before it; the
    timing state and the events are left as they were, and the measure
    still spans the full [get_ticks_per_measure()] ticks with the whole
    measure as its quantization unit. *)
Theorem C5_empty_range_bare_terminator sym s evs start stop tja :
  (stop ≤ start)%nat →
  tsign_lower s ≠ 0 →
  ∃ len, get_ticks_per_measure s = Ok len ∧ 1 ≤ len ∧
    scan_measure sym s evs start stop tja =
      Ok (s, evs, emit MeasureEnd tja,
          mkMeasure (tick_measure_begin s) (tick_measure_begin s + len) len
            start stop).
Proof.
  intros Hrange Hd.
  destruct (get_ticks_per_measure_safe s Hd) as (len & Hlen & Hpos).
  exists len. split; [done|]. split; [done|].
  by apply scan_measure_empty.
Qed.

Lemma C5_empty_range_bare_terminator_witness :
  ∃ len, get_ticks_per_measure (init_state 480) = Ok len ∧ 1 ≤ len ∧
    scan_measure "7" (init_state 480) [] 0 0 (Some []) =
      Ok (init_state 480, [], Some [MeasureEnd],
          mkMeasure 0 (0 + len) len 0 0).
Proof.
  apply (C5_empty_range_bare_terminator "7" (init_state 480) [] 0 0 (Some [])).
  - simpl. lia.
  - simpl. lia.
Defined.

(** The measure of 1920 ticks flushed over no event has one cell
    (its unit is the whole measure), yet the text written is [,] alone
    and not [0,]. *)
Lemma C5_counterexample :
  ∃ s evs out m,
    scan_measure "7" (init_state 480) [] 0 0 (Some []) = Ok (s, evs, Some out, m) ∧
    (m_tick_end m - m_tick_beg m) / m_tick_gcd m = 1 ∧
    render (λ _, EmptyString) out = "," +:+ newline ∧
    render (λ _, EmptyString) out ≠ zeros 1 +:+ "," +:+ newline.
Proof.
  eexists _, _, _, _. split; [vm_compute; reflexivity|].
  split; [reflexivity|]. split; [reflexivity|]. discriminate.
Qed.

(** ** Re-anchoring at tempo changes *)



(** ** The event loop of [scan_measure], case by case *)

Lemma balloon_is_open_true s evs :
  balloon_is_open s evs = Ok true ↔
  ∃ bs b be, balloons s = Some bs ∧ last bs = Some b ∧
             evs !! b = Some be ∧ usec_end_abs be < 0.
Proof.
  unfold balloon_is_open. split.
  - destruct (balloons s) as [bs|]; [|discriminate]. intros H. inv_oks.
    apply getlast_Ok in Ha. apply getitem_Ok in Ha0.
    apply bool_decide_eq_true in Hk0. eauto 10.
  - intros (bs & b & be & -> & Hb & Hbe & Hneg).
    apply getlast_Ok in Hb. apply getitem_Ok in Hbe. rewrite Hb. simpl.
    rewrite Hbe. simpl. f_equal. by apply bool_decide_eq_true.
Qed.

Lemma balloon_is_open_false s evs :
  balloon_is_open s evs = Ok false ↔
  balloons s = None ∨
  ∃ bs b be, balloons s = Some bs ∧ last bs = Some b ∧
             evs !! b = Some be ∧ 0 ≤ usec_end_abs be.
Proof.
  unfold balloon_is_open. split.
  - destruct (balloons s) as [bs|]; [|by left]. intros H. inv_oks.
    apply getlast_Ok in Ha. apply getitem_Ok in Ha0.
    apply bool_decide_eq_false in Hk0. right. exists bs, a, a0.
    repeat split; auto; lia.
  - intros [-> | (bs & b & be & -> & Hb & Hbe & Hneg)]; [done|].
    apply getlast_Ok in Hb. apply getitem_Ok in Hbe. rewrite Hb. simpl.
    rewrite Hbe. simpl. f_equal. apply bool_decide_eq_false. lia.
Qed.

Lemma scan_branch_taken sym i e f f' :
  scan_branch sym i e f = Ok f' ↔ branch_taken sym i e f f'.
Proof.
  split.
  - unfold scan_branch. intros H.
    destruct (msg e) as [n d | t | ch n v | ch n v] eqn:Hmsg.
    + inv_oks. subst. by constructor.
    + inv_oks. subst. by econstructor.
    + destruct (is_long_note sym) eqn:Hlong; simpl in H.
      * inv_oks. destruct a; simpl in *.
        -- inv_oks. subst. by eapply branch_open_ignored.
        -- inv_oks. subst. by eapply branch_open.
      * inv_oks. subst. by eapply branch_hit.
    + destruct (is_long_note sym) eqn:Hlong; simpl in H.
      * inv_oks. destruct a; simpl in *.
        -- inv_oks. subst.
           apply balloon_is_open_true in Ha as (bs & b & be & Hbs & Hb & Hbe & Hneg).
           rewrite Hbs in Ha0. simpl in Ha0.
           apply getlast_Ok in Ha0. apply getitem_Ok in Ha1.
           assert (a = b) by congruence. subst a.
           assert (a0 = be) by congruence. subst a0.
           by eapply branch_close.
        -- inv_oks. subst. eapply branch_close_ignored; eauto.
      * inv_oks. subst. eapply branch_close_ignored; eauto.
  - intros H. unfold scan_branch.
    destruct H as [n d Hm | t s Hm Hs | ch n v usec Hm Hl Hu
                  | ch n v usec Hm Hl Ho Hu | ch n v Hm Hl Ho
                  | ch n v bs b be usec Hm Hl Hbs Hb Hbe Hneg Hu
                  | ch n v Hm Hc]; rewrite Hm.
    + done.
    + rewrite Hs. done.
    + rewrite Hl. simpl. rewrite Hu. done.
    + rewrite Hl. simpl. rewrite Ho. simpl. rewrite Hu. done.
    + rewrite Hl. simpl. rewrite Ho. done.
    + rewrite Hl.
      assert (Ho : balloon_is_open (f_self f) (f_events f) = Ok true).
      { apply balloon_is_open_true. eauto 10. }
      rewrite Ho. simpl. rewrite Hbs. simpl.
      apply getlast_Ok in Hb. rewrite Hb. simpl.
      apply getitem_Ok in Hbe. rewrite Hbe. simpl. rewrite Hu. done.
    + destruct Hc as [Hl | Ho].
      * rewrite Hl. done.
      * destruct (is_long_note sym); [|done]. rewrite Ho. done.
Qed.

Lemma scan_event_Ok sym tick_beg tick_gcd f i f' :
  scan_event sym tick_beg tick_gcd f i = Ok f' ↔
  ∃ e, f_events f !! i = Some e ∧ tick_gcd ≠ 0 ∧
       branch_taken sym i e
         (advance_cells ((tick_abs e - tick_beg) / tick_gcd) f) f'.
Proof.
  unfold scan_event. split.
  - intros H. inv_oks. apply getitem_Ok in Ha.
    apply floordiv_Ok in Ha0 as [Hg ->]. apply scan_branch_taken in Hk0. eauto.
  - intros (e & He & Hg & Hb). apply getitem_Ok in He. rewrite He. simpl.
    unfold floordiv. case_decide; [done|]. simpl. by apply scan_branch_taken.
Qed.

(** ** What an event step preserves *)

Lemma timeline_length evs evs' :
  timeline evs' = timeline evs → length evs' = length evs.
Proof.
  intros H. apply (f_equal length) in H. unfold timeline in H.
  by rewrite !length_fmap in H.
Qed.

Lemma timeline_lookup evs evs' i e' :
  timeline evs' = timeline evs → evs' !! i = Some e' →
  ∃ e, evs !! i = Some e ∧ msg e = msg e' ∧ tick_abs e = tick_abs e' ∧
       tick_end_abs e = tick_end_abs e'.
Proof.
  intros H He'. apply (f_equal (λ l, l !! i)) in H. unfold timeline in H.
  rewrite !list_lookup_fmap, He' in H. simpl in H.
  destruct (evs !! i) as [e|]; [|discriminate]. simpl in H.
  exists e. split; [done|]. by injection H as -> -> ->.
Qed.

Lemma timeline_insert evs i e e' :
  evs !! i = Some e →
  msg e' = msg e → tick_abs e' = tick_abs e → tick_end_abs e' = tick_end_abs e →
  timeline (<[i := e']> evs) = timeline evs.
Proof.
  intros He Hm Ht Hte. unfold timeline. rewrite list_fmap_insert.
  apply list_insert_id. rewrite list_lookup_fmap, He. simpl.
  by rewrite Hm, Ht, Hte.
Qed.

Lemma denominators_nonzero_timeline evs evs' :
  timeline evs' = timeline evs →
  denominators_nonzero evs → denominators_nonzero evs'.
Proof.
  intros H Hd i e' n d He' Hm.
  destruct (timeline_lookup _ _ _ _ H He') as (e & He & Hmsg & _).
  apply (Hd i e n d He). congruence.
Qed.

Lemma advance_cells_self idiv f : f_self (advance_cells idiv f) = f_self f.
Proof. unfold advance_cells. by case_decide. Qed.

Lemma advance_cells_events idiv f : f_events (advance_cells idiv f) = f_events f.
Proof. unfold advance_cells. by case_decide. Qed.

Lemma get_usec_at_tpb s tick u : get_usec_at s tick = Ok u → ticks_per_beat s ≠ 0.
Proof. intros H. by apply get_usec_at_Ok in H as [? _]. Qed.

(** The fields of [self] an event step never writes, and the timeline. *)
Lemma branch_taken_preserves sym i e f f' :
  f_events f !! i = Some e →
  branch_taken sym i e f f' →
  timeline (f_events f') = timeline (f_events f) ∧
  ticks_per_beat (f_self f') = ticks_per_beat (f_self f) ∧
  tick_measure_begin (f_self f') = tick_measure_begin (f_self f) ∧
  i_measure_begin (f_self f') = i_measure_begin (f_self f).
Proof.
  intros He H.
  destruct H as [n d Hm | t s Hm Hs | ch n v usec Hm Hl Hu
                | ch n v usec Hm Hl Ho Hu | ch n v Hm Hl Ho
                | ch n v bs b be usec Hm Hl Hbs Hb Hbe Hneg Hu
                | ch n v Hm Hc]; simpl; try done.
  - apply change_tempo_Ok in Hs as (u & _ & ->). done.
  - split; [|done]. by eapply timeline_insert.
  - split; [|done]. by eapply timeline_insert.
  - split; [|done]. by eapply timeline_insert.
Qed.

Lemma scan_event_preserves sym tick_beg tick_gcd f i f' :
  scan_event sym tick_beg tick_gcd f i = Ok f' →
  timeline (f_events f') = timeline (f_events f) ∧
  ticks_per_beat (f_self f') = ticks_per_beat (f_self f) ∧
  tick_measure_begin (f_self f') = tick_measure_begin (f_self f) ∧
  i_measure_begin (f_self f') = i_measure_begin (f_self f).
Proof.
  intros H. apply scan_event_Ok in H as (e & He & Hg & Hb).
  apply branch_taken_preserves in Hb.
  - by rewrite advance_cells_self, advance_cells_events in Hb.
  - by rewrite advance_cells_events.
Qed.

Lemma valid_balloons_length s evs evs' :
  length evs' = length evs → valid_balloons s evs → valid_balloons s evs'.
Proof. unfold valid_balloons. intros ->. done. Qed.

Lemma branch_taken_runnable sym i e f f' :
  f_events f !! i = Some e →
  branch_taken sym i e f f' →
  runnable (f_self f) (f_events f) → runnable (f_self f') (f_events f').
Proof.
  intros He H (Htpb & Hlow & Hbal & Hden).
  pose proof (branch_taken_preserves _ _ _ _ _ He H) as (Htl & Htpb' & _).
  unfold runnable. rewrite Htpb'. split; [done|].
  assert (Hlen := timeline_length _ _ Htl).
  assert (Hden' := denominators_nonzero_timeline _ _ Htl Hden).
  destruct H as [n d Hm | t s Hm Hs | ch n v usec Hm Hl Hu
                | ch n v usec Hm Hl Ho Hu | ch n v Hm Hl Ho
                | ch n v bs b be usec Hm Hl Hbs Hb Hbe Hneg Hu
                | ch n v Hm Hc]; simpl in *; try done.
  - split; [|done]. by apply (Hden i e n d He).
  - apply change_tempo_Ok in Hs as (u & _ & ->). done.
  - split; [done|]. split; [|done].
    by eapply valid_balloons_length.
  - split; [done|]. split; [|done].
    unfold valid_balloons in *. simpl. split.
    + by destruct (default [] (balloons (f_self f))).
    + apply Forall_app. split.
      * destruct (balloons (f_self f)) as [bs|]; simpl; [|constructor].
        rewrite Hlen. apply Hbal.
      * apply Forall_singleton. rewrite Hlen.
        by eapply lookup_lt_Some.
  - split; [done|]. split; [|done].
    by eapply valid_balloons_length.
Qed.

Lemma scan_event_runnable sym tick_beg tick_gcd f i f' :
  scan_event sym tick_beg tick_gcd f i = Ok f' →
  runnable (f_self f) (f_events f) → runnable (f_self f') (f_events f').
Proof.
  intros H. apply scan_event_Ok in H as (e & He & Hg & Hb).
  intros Hr. eapply branch_taken_runnable in Hb.
  - exact Hb.
  - by rewrite advance_cells_events.
  - by rewrite advance_cells_self, advance_cells_events.
Qed.

(** Under [runnable], every path through the branches returns. *)
Lemma branch_taken_exists sym i e f :
  runnable (f_self f) (f_events f) → ∃ f', branch_taken sym i e f f'.
Proof.
  intros (Htpb & Hlow & Hbal & Hden).
  assert (Husec : ∀ s tick, ticks_per_beat s ≠ 0 → ∃ u, get_usec_at s tick = Ok u).
  { intros s tick Hs. eexists. by apply get_usec_at_Ok. }
  assert (Hopen : ∃ o, balloon_is_open (f_self f) (f_events f) = Ok o).
  { unfold balloon_is_open, valid_balloons in *.
    destruct (balloons (f_self f)) as [bs|]; [|eauto].
    destruct Hbal as [Hne Hall].
    destruct (last bs) as [b|] eqn:Hb.
    - assert (Hin : b ∈ bs).
      { rewrite last_lookup in Hb. by eapply list_elem_of_lookup_2. }
      rewrite Forall_forall in Hall. specialize (Hall b Hin).
      apply lookup_lt_is_Some in Hall as [be Hbe].
      apply getlast_Ok in Hb. apply getitem_Ok in Hbe.
      rewrite Hb. simpl. rewrite Hbe. simpl. eauto.
    - apply last_None in Hb. done. }
  destruct (Husec (f_self f) (tick_abs e) Htpb) as [u Hu].
  destruct Hopen as [o Ho].
  destruct (msg e) as [n d | t | ch n v | ch n v] eqn:Hm.
  - eexists. by eapply branch_time_signature.
  - eexists. eapply branch_set_tempo; [done|].
    apply change_tempo_Ok. eauto.
  - destruct (is_long_note sym) eqn:Hl.
    + destruct o.
      * eexists. by eapply branch_open_ignored.
      * eexists. by eapply branch_open.
    + eexists. by eapply branch_hit.
  - destruct (is_long_note sym) eqn:Hl.
    + destruct o.
      * apply balloon_is_open_true in Ho as (bs & b & be & ? & ? & ? & ?).
        eexists. by eapply branch_close.
      * eexists. eapply branch_close_ignored; eauto.
    + eexists. eapply branch_close_ignored; eauto.
Qed.

Lemma scan_event_safe sym tick_beg tick_gcd f i :
  runnable (f_self f) (f_events f) →
  (i < length (f_events f))%nat → tick_gcd ≠ 0 →
  ∃ f', scan_event sym tick_beg tick_gcd f i = Ok f'.
Proof.
  intros Hr Hi Hg. apply lookup_lt_is_Some in Hi as [e He].
  destruct (branch_taken_exists sym i e
              (advance_cells ((tick_abs e - tick_beg) / tick_gcd) f)) as [f' Hf'].
  { by rewrite advance_cells_self, advance_cells_events. }
  exists f'. apply scan_event_Ok. eauto.
Qed.

(** ** What [scan_measure] preserves *)

Lemma collect_tick_rels_safe evs tick_beg l :
  Forall (λ i, (i < length evs)%nat) l →
  ∃ rels, collect_tick_rels evs tick_beg l = Ok rels.
Proof.
  induction 1 as [|i l Hi _ [rels IH]]; simpl; [eauto|].
  apply lookup_lt_is_Some in Hi as [e He]. apply getitem_Ok in He.
  rewrite He, IH. simpl. eauto.
Qed.


Lemma Forall_range_lt lo hi n : (hi ≤ n)%nat → Forall (λ i, (i < n)%nat) (range lo hi).
Proof.
  intros H. apply Forall_forall. intros i Hi%elem_of_range. lia.
Qed.

Lemma frame_kept_refl f : frame_kept f f.
Proof. unfold frame_kept. split_and!; auto. Qed.

Lemma frame_kept_trans f1 f2 f3 :
  frame_kept f1 f2 → frame_kept f2 f3 → frame_kept f1 f3.
Proof.
  intros (H1 & H2 & H3 & H4 & H5) (K1 & K2 & K3 & K4 & K5).
  unfold frame_kept. split_and!; try congruence. auto.
Qed.

Lemma scan_event_kept sym tick_beg tick_gcd f i f' :
  scan_event sym tick_beg tick_gcd f i = Ok f' → frame_kept f f'.
Proof.
  intros H. destruct (scan_event_preserves _ _ _ _ _ _ H) as (?&?&?&?).
  unfold frame_kept. split_and!; try done. by eapply scan_event_runnable.
Qed.

Lemma scan_events_kept sym tick_beg tick_gcd l f f' :
  for_each (scan_event sym tick_beg tick_gcd) l f = Ok f' → frame_kept f f'.
Proof.
  intros H.
  eapply (for_each_invariant (frame_kept f)); [|apply frame_kept_refl|exact H].
  intros f1 i f2 _ Hk Hstep. eapply frame_kept_trans; [exact Hk|].
  by eapply scan_event_kept.
Qed.

Lemma scan_events_safe sym tick_beg tick_gcd l f :
  runnable (f_self f) (f_events f) →
  Forall (λ i, (i < length (f_events f))%nat) l → tick_gcd ≠ 0 →
  ∃ f', for_each (scan_event sym tick_beg tick_gcd) l f = Ok f'.
Proof.
  intros Hr Hl Hg. revert f Hr Hl.
  induction l as [|i l IH]; intros f Hr Hl; simpl; [eauto|].
  apply Forall_cons in Hl as [Hi Hl].
  destruct (scan_event_safe sym tick_beg tick_gcd f i Hr Hi Hg) as [f1 Hf1].
  rewrite Hf1. simpl.
  destruct (scan_event_kept _ _ _ _ _ _ Hf1) as (Htl & _ & _ & _ & Hr1).
  apply IH; [auto|]. by rewrite (timeline_length _ _ Htl).
Qed.

(** [scan_measure] taken apart: the measure length, the offsets, the
    loop and the closing cells. *)
Lemma scan_measure_Ok sym s evs start stop tja s' evs' tja' m :
  scan_measure sym s evs start stop tja = Ok (s', evs', tja', m) ↔
  ∃ len rels f,
    get_ticks_per_measure s = Ok len ∧
    collect_tick_rels evs (tick_measure_begin s) (range start stop) = Ok rels ∧
    let tick_gcd := gcd_all (remove_duplications (rels ++ [len])) in
    let idiv := len / tick_gcd in
    for_each (scan_event sym (tick_measure_begin s) tick_gcd) (range start stop)
      (mkFrame s evs tja true 0 "0"%char) = Ok f ∧
    s' = f_self f ∧ evs' = f_events f ∧
    tja' = emit MeasureEnd
             (if decide ((start < stop)%nat ∧ idiv > idiv_last f) then
                emit (Cells (note_symbol_last f)
                        (Z.to_nat (idiv - idiv_last f - 1))) (f_tja f)
              else f_tja f) ∧
    m = mkMeasure (tick_measure_begin s) (tick_measure_begin s + len) tick_gcd
          start stop.
Proof.
  unfold scan_measure, get_tick_measure_end. split.
  - intros H. inv_oks. subst.
    repeat match goal with
    | H : context [tick_measure_begin s + ?n - tick_measure_begin s] |- _ =>
        replace (tick_measure_begin s + n - tick_measure_begin s) with n in H by lia
    end.
    match goal with
    | H : floordiv _ _ = Ok _ |- _ => apply floordiv_Ok in H as [Hg ->]
    end.
    match goal with
    | H : (_, _, _, _) = (_, _, _, _) |- _ => injection H as <- <- <- <-
    end.
    eexists _, _, _. split_and!; try done; eauto.
  - intros (len & rels & f & Hlen & Hrels & Hloop & -> & -> & -> & ->).
    rewrite Hlen. simpl. rewrite Hrels. simpl.
    replace (tick_measure_begin s + len - tick_measure_begin s) with len by lia.
    rewrite Hloop. simpl.
    assert (1 ≤ len) by (apply get_ticks_per_measure_Ok in Hlen; lia).
    pose proof (gcd_all_snoc_pos rels len ltac:(lia)) as Hpos.
    rewrite <- gcd_all_remove_duplications in Hpos.
    unfold floordiv. case_decide; [lia|]. done.
Qed.

Lemma scan_measure_facts sym s evs start stop tja s' evs' tja' m :
  scan_measure sym s evs start stop tja = Ok (s', evs', tja', m) →
  timeline evs' = timeline evs ∧
  ticks_per_beat s' = ticks_per_beat s ∧
  tick_measure_begin s' = tick_measure_begin s ∧
  i_measure_begin s' = i_measure_begin s ∧
  (runnable s evs → runnable s' evs') ∧
  m_tick_beg m = tick_measure_begin s ∧
  get_tick_measure_end s = Ok (m_tick_end m) ∧
  m_tick_beg m < m_tick_end m ∧
  0 < m_tick_gcd m ∧
  (m_tick_gcd m | m_tick_end m - m_tick_beg m) ∧
  m_start m = start ∧ m_stop m = stop.
Proof.
  intros H. apply scan_measure_Ok in H
    as (len & rels & f & Hlen & Hrels & Hloop & -> & -> & -> & ->).
  apply scan_events_kept in Hloop as (Htl & Htpb & Htmb & Himb & Hr).
  simpl in *.
  assert (1 ≤ len) by (apply get_ticks_per_measure_Ok in Hlen; lia).
  split_and!; try done.
  - unfold get_tick_measure_end. by rewrite Hlen.
  - lia.
  - rewrite gcd_all_remove_duplications. apply gcd_all_snoc_pos. lia.
  - rewrite gcd_all_remove_duplications.
    replace (tick_measure_begin s + len - tick_measure_begin s) with len by lia.
    apply gcd_all_divide. apply elem_of_app. right. by left.
Qed.

Lemma scan_measure_safe sym s evs start stop tja :
  runnable s evs → (stop ≤ length evs)%nat →
  ∃ s' evs' tja' m, scan_measure sym s evs start stop tja = Ok (s', evs', tja', m).
Proof.
  intros Hr Hstop.
  destruct (get_ticks_per_measure_safe s) as (len & Hlen & Hpos); [apply Hr|].
  destruct (collect_tick_rels_safe evs (tick_measure_begin s) (range start stop))
    as [rels Hrels]; [by apply Forall_range_lt|].
  pose proof (gcd_all_snoc_pos rels len ltac:(lia)) as Hg.
  rewrite <- gcd_all_remove_duplications in Hg.
  destruct (scan_events_safe sym (tick_measure_begin s)
              (gcd_all (remove_duplications (rels ++ [len])))
              (range start stop) (mkFrame s evs tja true 0 "0"%char))
    as [f Hf]; simpl; [done | by apply Forall_range_lt | lia |].
  eexists _, _, _, _. apply scan_measure_Ok. exists len, rels, f. done.
Qed.

(** ** Only the [while] loop can run out of fuel *)

Ltac no_oof :=
  repeat first
    [ apply floordiv_not_OutOfFuel
    | apply getitem_not_OutOfFuel
    | apply getlast_not_OutOfFuel
    | apply bind_not_OutOfFuel; [|intros ? ?]
    | discriminate
    | match goal with
      | |- (if ?b then _ else _) ≠ OutOfFuel => destruct b
      | |- (match ?m with _ => _ end) ≠ OutOfFuel => destruct m
      end ].

Lemma get_usec_at_not_OutOfFuel s tick : get_usec_at s tick ≠ OutOfFuel.
Proof. unfold get_usec_at. no_oof. Qed.

Lemma get_tick_measure_end_not_OutOfFuel s : get_tick_measure_end s ≠ OutOfFuel.
Proof. unfold get_tick_measure_end, get_ticks_per_measure. no_oof. Qed.

Lemma advance_measure_not_OutOfFuel s : advance_measure s ≠ OutOfFuel.
Proof.
  unfold advance_measure.
  apply bind_not_OutOfFuel; [apply get_tick_measure_end_not_OutOfFuel | discriminate].
Qed.

Lemma balloon_is_open_not_OutOfFuel s evs : balloon_is_open s evs ≠ OutOfFuel.
Proof. unfold balloon_is_open. no_oof. Qed.

Lemma scan_event_not_OutOfFuel sym tick_beg tick_gcd f i :
  scan_event sym tick_beg tick_gcd f i ≠ OutOfFuel.
Proof.
  unfold scan_event. apply bind_not_OutOfFuel; [no_oof|]. intros e _.
  apply bind_not_OutOfFuel; [no_oof|]. intros idiv _.
  unfold scan_branch, change_tempo, advance_usec.
  destruct (msg e); [discriminate | | |].
  - apply bind_not_OutOfFuel; [|discriminate].
    apply bind_not_OutOfFuel; [|discriminate].
    apply bind_not_OutOfFuel; [apply get_usec_at_not_OutOfFuel | discriminate].
  - destruct (negb (is_long_note sym)).
    + apply bind_not_OutOfFuel; [apply get_usec_at_not_OutOfFuel | discriminate].
    + apply bind_not_OutOfFuel; [apply balloon_is_open_not_OutOfFuel|].
      intros o _. destruct (negb o); [|discriminate].
      apply bind_not_OutOfFuel; [apply get_usec_at_not_OutOfFuel | discriminate].
  - destruct (is_long_note sym); [|discriminate].
    apply bind_not_OutOfFuel; [apply balloon_is_open_not_OutOfFuel|].
    intros o _. destruct o; [|discriminate].
    apply bind_not_OutOfFuel; [no_oof|]. intros b _.
    apply bind_not_OutOfFuel; [no_oof|]. intros be _.
    apply bind_not_OutOfFuel; [apply get_usec_at_not_OutOfFuel | discriminate].
Qed.

Lemma collect_tick_rels_not_OutOfFuel evs tick_beg l :
  collect_tick_rels evs tick_beg l ≠ OutOfFuel.
Proof.
  induction l as [|i l IH]; simpl; [discriminate|].
  apply bind_not_OutOfFuel; [no_oof|]. intros e _.
  apply bind_not_OutOfFuel; [done | discriminate].
Qed.

Lemma scan_measure_not_OutOfFuel sym s evs start stop tja :
  scan_measure sym s evs start stop tja ≠ OutOfFuel.
Proof.
  unfold scan_measure.
  apply bind_not_OutOfFuel; [apply get_tick_measure_end_not_OutOfFuel|].
  intros tick_end _.
  apply bind_not_OutOfFuel; [apply collect_tick_rels_not_OutOfFuel|].
  intros rels _.
  apply bind_not_OutOfFuel.
  { apply for_each_not_OutOfFuel. intros. apply scan_event_not_OutOfFuel. }
  intros f _. apply bind_not_OutOfFuel; [no_oof | discriminate].
Qed.

(** ** Termination of the measure-flushing loop *)

Lemma advance_measure_increases s s' :
  advance_measure s = Ok s' → tick_measure_begin s < tick_measure_begin s'.
Proof.
  intros H. apply advance_measure_Ok in H as (n & Hn & ->).
  apply get_ticks_per_measure_Ok in Hn as [_ ->]. simpl. lia.
Qed.

Lemma flush_measures_terminates sym fuel tick i c :
  (Z.to_nat (tick - tick_measure_begin (c_self c)) < fuel)%nat →
  flush_measures sym fuel tick i c ≠ OutOfFuel.
Proof.
  revert c. induction fuel as [|fuel IH]; intros c Hfuel; [lia|]. simpl.
  apply bind_not_OutOfFuel; [apply get_tick_measure_end_not_OutOfFuel|].
  intros tick_end Hend. case_decide as Hle; [|discriminate].
  apply bind_not_OutOfFuel; [apply scan_measure_not_OutOfFuel|].
  intros [[[s evs] tja] m] Hm.
  apply bind_not_OutOfFuel; [apply advance_measure_not_OutOfFuel|].
  intros s' Hs'. apply IH. simpl.
  apply scan_measure_facts in Hm as (_ & _ & Hbeg & _).
  apply advance_measure_increases in Hs'.
  apply get_tick_measure_end_Ok in Hend as (n & Hn & ->).
  apply get_ticks_per_measure_Ok in Hn as [_ ->]. lia.
Qed.

(** Once the loop has enough fuel to finish, more fuel changes nothing. *)
Lemma flush_measures_fuel_mono sym fuel fuel' tick i c :
  (fuel ≤ fuel')%nat →
  flush_measures sym fuel tick i c ≠ OutOfFuel →
  flush_measures sym fuel' tick i c = flush_measures sym fuel tick i c.
Proof.
  revert fuel' c. induction fuel as [|fuel IH]; intros fuel' c Hle Hne; [done|].
  destruct fuel' as [|fuel']; [lia|]. simpl in *.
  destruct (get_tick_measure_end (c_self c)) as [tick_end| |]; simpl in *; try done.
  case_decide; [|done].
  destruct (scan_measure sym (c_self c) (c_events c) (c_i_measure_begin c) i (c_tja c))
    as [[[[s evs] tja] m]| |]; simpl in *; try done.
  destruct (advance_measure s) as [s'| |]; simpl in *; try done.
  apply IH; [lia | done].
Qed.

(** ** What [scan_chart] preserves, and that it returns *)

Lemma chart_kept_refl c : chart_kept c c.
Proof. unfold chart_kept. split_and!; auto. lia. Qed.

Lemma chart_kept_trans c1 c2 c3 :
  chart_kept c1 c2 → chart_kept c2 c3 → chart_kept c1 c3.
Proof.
  intros (H1 & H2 & H3 & H4) (K1 & K2 & K3 & K4).
  unfold chart_kept. split_and!; [congruence | congruence | lia | auto].
Qed.

Lemma runnable_advance_measure s s' evs :
  advance_measure s = Ok s' → runnable s evs → runnable s' evs.
Proof.
  intros H. apply advance_measure_Ok in H as (n & _ & ->). done.
Qed.

Lemma flush_measures_kept sym fuel tick i c c' :
  flush_measures sym fuel tick i c = Ok c' → chart_kept c c'.
Proof.
  revert c. induction fuel as [|fuel IH]; intros c H; [discriminate|].
  simpl in H. inv_ok H. case_decide as Hle.
  - inv_ok H. destruct a0 as [[[s evs] tja] m]. inv_ok H.
    eapply chart_kept_trans; [|apply (IH _ H)].
    apply scan_measure_facts in Ha0 as (Htl & Htpb & Htmb & _ & Hr & _).
    pose proof (advance_measure_increases _ _ Ha1) as Hinc.
    pose proof Ha1 as Hadv.
    apply advance_measure_Ok in Hadv as (n & _ & ->).
    unfold chart_kept; simpl in *. split_and!; try done; try lia.
    all: intros Hrun; by apply Hr.
  - apply Ok_inj in H as <-. apply chart_kept_refl.
Qed.

Lemma flush_measures_safe sym fuel tick i c :
  runnable (c_self c) (c_events c) →
  (i ≤ length (c_events c))%nat →
  (Z.to_nat (tick - tick_measure_begin (c_self c)) < fuel)%nat →
  ∃ c', flush_measures sym fuel tick i c = Ok c'.
Proof.
  revert c. induction fuel as [|fuel IH]; intros c Hr Hi Hfuel; [lia|]. simpl.
  destruct (get_ticks_per_measure_safe (c_self c)) as (n & Hn & Hpos); [apply Hr|].
  unfold get_tick_measure_end. rewrite Hn. simpl.
  case_decide as Hle; [|eauto].
  destruct (scan_measure_safe sym (c_self c) (c_events c) (c_i_measure_begin c) i
              (c_tja c) Hr Hi) as (s & evs & tja & m & Hm).
  rewrite Hm. simpl.
  apply scan_measure_facts in Hm as (Htl & Htpb & Htmb & _ & Hr' & _).
  specialize (Hr' Hr).
  destruct (get_ticks_per_measure_safe s) as (n' & Hn' & Hpos'); [apply Hr'|].
  assert (Hadv : advance_measure s =
                 Ok (set_tick_measure_begin (tick_measure_begin s + n') s)).
  { apply advance_measure_Ok. eauto. }
  rewrite Hadv. simpl. apply IH; simpl.
  - by eapply runnable_advance_measure.
  - by rewrite (timeline_length _ _ Htl).
  - lia.
Qed.

Lemma sync_tsign_runnable e i s evs :
  evs !! i = Some e → runnable s evs → runnable (sync_tsign e s) evs.
Proof.
  intros He (Htpb & Hlow & Hbal & Hden). unfold sync_tsign.
  case_decide; [|done]. destruct (msg e) as [n d| | |] eqn:Hm; try done.
  split_and!; try done. simpl. by apply (Hden i e n d).
Qed.

Lemma sync_tsign_fields e s :
  ticks_per_beat (sync_tsign e s) = ticks_per_beat s ∧
  tick_measure_begin (sync_tsign e s) = tick_measure_begin s ∧
  balloons (sync_tsign e s) = balloons s ∧
  usec_per_beat (sync_tsign e s) = usec_per_beat s ∧
  tick_checkpoint (sync_tsign e s) = tick_checkpoint s ∧
  usec_checkpoint (sync_tsign e s) = usec_checkpoint s.
Proof. unfold sync_tsign. case_decide; [|done]. by destruct (msg e). Qed.

Lemma scan_chart_event_Ok sym fuel c i c' :
  scan_chart_event sym fuel c i = Ok c' ↔
  ∃ e c1, c_events c !! i = Some e ∧
    flush_measures sym fuel (tick_abs e) i c = Ok c1 ∧
    c' = mkChart (sync_tsign e (c_self c1)) (c_events c1) (c_tja c1)
           (c_i_measure_begin c1) (c_measures c1).
Proof.
  unfold scan_chart_event. split.
  - intros H. inv_oks. apply getitem_Ok in Ha. subst. eauto.
  - intros (e & c1 & He & Hf & ->). apply getitem_Ok in He.
    rewrite He. simpl. rewrite Hf. done.
Qed.

Lemma scan_chart_event_kept sym fuel c i c' :
  scan_chart_event sym fuel c i = Ok c' → chart_kept c c'.
Proof.
  intros H. apply scan_chart_event_Ok in H as (e & c1 & He & Hf & ->).
  apply flush_measures_kept in Hf as (Htl & Htpb & Htmb & Hr).
  destruct (sync_tsign_fields e (c_self c1)) as (Ktpb & Ktmb & _).
  unfold chart_kept; simpl. rewrite Ktpb, Ktmb. split_and!; try done.
  intros Hrun. specialize (Hr Hrun).
  destruct (timeline_lookup (c_events c1) (c_events c) i e) as (e1 & He1 & Hm & Ht & _);
    [done.. |].
  unfold runnable in *. destruct Hr as (? & ? & ? & Hden).
  unfold sync_tsign. case_decide; [|done].
  destruct (msg e) as [n d| | |] eqn:Hmsg; try done.
  split_and!; try done. simpl. apply (Hden i e1 n d He1). congruence.
Qed.

Lemma fuel_for_bound s evs e :
  e ∈ evs → (Z.to_nat (tick_abs e - tick_measure_begin s) < fuel_for s evs)%nat.
Proof.
  unfold fuel_for. intros He.
  enough (tick_abs e - tick_measure_begin s ≤
          foldr Z.max 0 ((λ e, tick_abs e - tick_measure_begin s) <$> evs)) by lia.
  induction evs as [|e' evs IH]; [by apply elem_of_nil in He|].
  apply elem_of_cons in He as [-> | He]; simpl; [lia|].
  etransitivity; [apply (IH He) | apply Z.le_max_r].
Qed.

Lemma scan_chart_events_kept sym fuel l c c' :
  for_each (scan_chart_event sym fuel) l c = Ok c' → chart_kept c c'.
Proof.
  intros H.
  eapply (for_each_invariant (chart_kept c)); [|apply chart_kept_refl|exact H].
  intros c1 i c2 _ Hk Hstep. eapply chart_kept_trans; [exact Hk|].
  by eapply scan_chart_event_kept.
Qed.

Lemma fuel_suffices_kept fuel c c' :
  chart_kept c c' → fuel_suffices fuel c → fuel_suffices fuel c'.
Proof.
  intros (Htl & _ & Htmb & _) Hf e' He'.
  apply list_elem_of_lookup in He' as [i He'].
  destruct (timeline_lookup _ _ _ _ Htl He') as (e & He & _ & Ht & _).
  assert (Hin : e ∈ c_events c) by (by eapply list_elem_of_lookup_2).
  specialize (Hf e Hin). lia.
Qed.

Lemma scan_chart_event_not_OutOfFuel sym fuel c i :
  fuel_suffices fuel c → scan_chart_event sym fuel c i ≠ OutOfFuel.
Proof.
  intros Hf. unfold scan_chart_event.
  apply bind_not_OutOfFuel; [apply getitem_not_OutOfFuel|].
  intros e He. apply getitem_Ok in He.
  apply bind_not_OutOfFuel; [|discriminate].
  apply flush_measures_terminates. apply Hf. by eapply list_elem_of_lookup_2.
Qed.

Lemma scan_chart_events_not_OutOfFuel sym fuel l c :
  fuel_suffices fuel c →
  for_each (scan_chart_event sym fuel) l c ≠ OutOfFuel.
Proof.
  revert c. induction l as [|i l IH]; intros c Hf; simpl; [discriminate|].
  apply bind_not_OutOfFuel; [by apply scan_chart_event_not_OutOfFuel|].
  intros c1 Hc1. apply IH. eapply fuel_suffices_kept; [|exact Hf].
  by eapply scan_chart_event_kept.
Qed.

Lemma scan_chart_event_safe sym fuel c i :
  runnable (c_self c) (c_events c) → fuel_suffices fuel c →
  (i < length (c_events c))%nat →
  ∃ c', scan_chart_event sym fuel c i = Ok c'.
Proof.
  intros Hr Hf Hi. apply lookup_lt_is_Some in Hi as [e He].
  destruct (flush_measures_safe sym fuel (tick_abs e) i c Hr) as [c1 Hc1].
  - apply lookup_lt_Some in He. lia.
  - apply Hf. by eapply list_elem_of_lookup_2.
  - eexists. apply scan_chart_event_Ok. eauto.
Qed.

Lemma scan_chart_events_safe sym fuel l c :
  runnable (c_self c) (c_events c) → fuel_suffices fuel c →
  Forall (λ i, (i < length (c_events c))%nat) l →
  ∃ c', for_each (scan_chart_event sym fuel) l c = Ok c'.
Proof.
  revert c. induction l as [|i l IH]; intros c Hr Hf Hl; simpl; [eauto|].
  apply Forall_cons in Hl as [Hi Hl].
  destruct (scan_chart_event_safe sym fuel c i Hr Hf Hi) as [c1 Hc1].
  rewrite Hc1. simpl.
  pose proof (scan_chart_event_kept _ _ _ _ _ Hc1) as Hk.
  apply IH.
  - by apply Hk.
  - by eapply fuel_suffices_kept.
  - destruct Hk as (Htl & _). by rewrite (timeline_length _ _ Htl).
Qed.

Lemma scan_chart_event_fuel_mono sym fuel fuel' c i :
  (fuel ≤ fuel')%nat → fuel_suffices fuel c →
  scan_chart_event sym fuel' c i = scan_chart_event sym fuel c i.
Proof.
  intros Hle Hf. unfold scan_chart_event.
  destruct (getitem (c_events c) i) as [e| |] eqn:He; simpl; try done.
  apply getitem_Ok in He.
  rewrite (flush_measures_fuel_mono sym fuel fuel'); [done | done |].
  apply flush_measures_terminates. apply Hf. by eapply list_elem_of_lookup_2.
Qed.

Lemma scan_chart_events_fuel_mono sym fuel fuel' l c :
  (fuel ≤ fuel')%nat → fuel_suffices fuel c →
  for_each (scan_chart_event sym fuel') l c =
  for_each (scan_chart_event sym fuel) l c.
Proof.
  intros Hle. revert c. induction l as [|i l IH]; intros c Hf; simpl; [done|].
  rewrite (scan_chart_event_fuel_mono sym fuel fuel') by done.
  destruct (scan_chart_event sym fuel c i) as [c1| |] eqn:Hc1; simpl; try done.
  apply IH. eapply fuel_suffices_kept; [|exact Hf].
  by eapply scan_chart_event_kept.
Qed.

Lemma fuel_suffices_init s evs tja fuel :
  (fuel_for s evs ≤ fuel)%nat → fuel_suffices fuel (mkChart s evs tja 0 []).
Proof.
  intros Hle e He. simpl in *. pose proof (fuel_for_bound s evs e He). lia.
Qed.

Lemma scan_chart_Ok sym fuel s evs tja s' evs' tja' ms :
  scan_chart sym fuel s evs tja = Ok (s', evs', tja', ms) ↔
  ∃ c m,
    for_each (scan_chart_event sym fuel) (range 0 (length evs))
      (mkChart s evs tja 0 []) = Ok c ∧
    scan_measure sym (c_self c) (c_events c) (c_i_measure_begin c)
      (length evs) (c_tja c) = Ok (s', evs', tja', m) ∧
    ms = c_measures c ++ [m].
Proof.
  unfold scan_chart. split.
  - intros H. inv_oks. destruct a0 as [[[s1 evs1] tja1] m].
    injection Hk0 as <- <- <- <-. eauto.
  - intros (c & m & -> & Hm & ->). simpl. rewrite Hm. done.
Qed.

Lemma scan_chart_fuel_mono sym fuel s evs tja :
  (fuel_for s evs ≤ fuel)%nat →
  scan_chart sym fuel s evs tja = scan_chart sym (fuel_for s evs) s evs tja.
Proof.
  intros Hle. unfold scan_chart.
  rewrite (scan_chart_events_fuel_mono sym (fuel_for s evs) fuel); [done | done |].
  by apply fuel_suffices_init.
Qed.

Lemma scan_chart_not_OutOfFuel sym fuel s evs tja :
  (fuel_for s evs ≤ fuel)%nat → scan_chart sym fuel s evs tja ≠ OutOfFuel.
Proof.
  intros Hle. unfold scan_chart. apply bind_not_OutOfFuel.
  - apply scan_chart_events_not_OutOfFuel. by apply fuel_suffices_init.
  - intros c _. apply bind_not_OutOfFuel; [apply scan_measure_not_OutOfFuel|].
    intros [[[? ?] ?] ?] _. discriminate.
Qed.

Lemma scan_chart_safe sym fuel s evs tja :
  runnable s evs → (fuel_for s evs ≤ fuel)%nat →
  ∃ s' evs' tja' ms, scan_chart sym fuel s evs tja = Ok (s', evs', tja', ms).
Proof.
  intros Hr Hle.
  destruct (scan_chart_events_safe sym fuel (range 0 (length evs))
              (mkChart s evs tja 0 [])) as [c Hc]; simpl.
  - done.
  - by apply fuel_suffices_init.
  - by apply Forall_range_lt.
  - pose proof (scan_chart_events_kept _ _ _ _ _ Hc) as (Htl & _ & _ & Hr').
    simpl in *. specialize (Hr' Hr).
    destruct (scan_measure_safe sym (c_self c) (c_events c) (c_i_measure_begin c)
                (length evs) (c_tja c) Hr') as (s' & evs' & tja' & m & Hm).
    { by rewrite (timeline_length _ _ Htl). }
    eexists _, _, _, _. apply scan_chart_Ok. eauto.
Qed.

(** ** C10: termination *)

(** C10: [get_ticks_per_measure] never returns less than 1, so
    [advance_measure] moves the cursor strictly forward and the [while]
    loop of [scan_chart] stops: with [fuel_for s evs] tests of its
    condition allowed per event (or any larger number, to the same
    effect) the scan never runs out of them, whatever the events; and
    from a state whose divisors are non-zero it returns normally. *)
Theorem C10_scan_chart_terminates sym s evs tja fuel :
  (fuel_for s evs ≤ fuel)%nat →
  (∀ s1 n, get_ticks_per_measure s1 = Ok n → 1 ≤ n) ∧
  (∀ s1 s2, advance_measure s1 = Ok s2 →
            tick_measure_begin s1 < tick_measure_begin s2) ∧
  (∀ tick i c, (Z.to_nat (tick - tick_measure_begin (c_self c)) < fuel)%nat →
               flush_measures sym fuel tick i c ≠ OutOfFuel) ∧
  scan_chart sym fuel s evs tja ≠ OutOfFuel ∧
  scan_chart sym fuel s evs tja = scan_chart sym (fuel_for s evs) s evs tja ∧
  (1 ≤ tsign_lower s → ticks_per_beat s ≠ 0 → valid_balloons s evs →
   denominators_nonzero evs →
   ∃ s' evs' tja' ms, scan_chart sym fuel s evs tja = Ok (s', evs', tja', ms)).
Proof.
  intros Hle. split_and!.
  - intros s1 n Hn. apply get_ticks_per_measure_Ok in Hn. lia.
  - apply advance_measure_increases.
  - intros tick i c. apply flush_measures_terminates.
  - by apply scan_chart_not_OutOfFuel.
  - by apply scan_chart_fuel_mono.
  - intros Hlow Htpb Hbal Hden. apply scan_chart_safe; [|done].
    unfold runnable. split_and!; try done. lia.
Qed.

Lemma denominators_nonzero_check evs :
  denominators_nonzero_b evs = true → denominators_nonzero evs.
Proof.
  unfold denominators_nonzero_b. rewrite forallb_forall.
  intros Hall i e n d He Hm.
  assert (Hin : In e evs).
  { apply list_elem_of_In. by eapply list_elem_of_lookup_2. }
  specialize (Hall e Hin). rewrite Hm in Hall.
  apply negb_true_iff, Z.eqb_neq in Hall. done.
Qed.

Lemma C10_scan_chart_terminates_witness :
  let s := init_state 2 in
  let evs := [new_event (time_signature 3 4) 5; new_event (note_on_msg 0 60 100) 20] in
  scan_chart "7" 21 s evs (Some []) ≠ OutOfFuel ∧
  ∃ s' evs' tja' ms, scan_chart "7" 21 s evs (Some []) = Ok (s', evs', tja', ms).
Proof.
  intros s evs.
  destruct (C10_scan_chart_terminates "7" s evs (Some []) 21)
    as (_ & _ & _ & Hfuel & _ & Hok).
  - vm_compute. lia.
  - split; [exact Hfuel|]. apply Hok.
    + simpl. lia.
    + simpl. lia.
    + exact I.
    + by apply denominators_nonzero_check.
Defined.

(** ** C2: the quantization unit *)





(** ** C1: time-signature changes and measure boundaries *)






Lemma get_ticks_per_measure_tsign s s' :
  ticks_per_beat s' = ticks_per_beat s → tsign s' = tsign s →
  get_ticks_per_measure s' = get_ticks_per_measure s.
Proof.
  unfold tsign, get_ticks_per_measure. intros -> [= -> ->]. done.
Qed.









Lemma runnable_init tpb evs :
  tpb ≠ 0 → denominators_nonzero_b evs = true → runnable (init_state tpb) evs.
Proof.
  intros Htpb Hden. unfold runnable. split_and!; try done.
  by apply denominators_nonzero_check.
Qed.



(** ** C9: the balloon list during a scan *)

Lemma sorted_timeline_timeline evs evs' :
  timeline evs' = timeline evs → sorted_timeline evs → sorted_timeline evs'.
Proof.
  intros H Hs i j ei ej Hij Hi Hj.
  destruct (timeline_lookup _ _ _ _ H Hi) as (ei' & Hi' & _ & <- & _).
  destruct (timeline_lookup _ _ _ _ H Hj) as (ej' & Hj' & _ & <- & _).
  by eapply Hs.
Qed.

Lemma tempos_nonneg_timeline evs evs' :
  timeline evs' = timeline evs → tempos_nonneg evs → tempos_nonneg evs'.
Proof.
  intros H Ht i e t He Hm.
  destruct (timeline_lookup _ _ _ _ H He) as (e' & He' & Hmsg & _).
  apply (Ht i e' t He'). congruence.
Qed.

Lemma get_usec_at_nonneg s tick u :
  0 < ticks_per_beat s → 0 ≤ usec_per_beat s → 0 ≤ usec_checkpoint s →
  tick_checkpoint s ≤ tick →
  get_usec_at s tick = Ok u → 0 ≤ u.
Proof.
  intros Htpb Hupb Hcp Htick Hu. apply get_usec_at_Ok in Hu as [_ ->].
  assert (0 ≤ (tick - tick_checkpoint s) * usec_per_beat s / ticks_per_beat s).
  { apply Z.div_pos; [|done]. apply Z.mul_nonneg_nonneg; lia. }
  lia.
Qed.

Lemma terminated_insert_ne evs b i e :
  b ≠ i → terminated evs b → terminated (<[i := e]> evs) b.
Proof.
  intros Hne (be & Hbe & Hend). exists be.
  by rewrite list_lookup_insert_ne.
Qed.

Lemma NoDup_lookup_last {A : Type} (l : list A) k x y :
  NoDup l → l !! k = Some x → (S k < length l)%nat → last l = Some y → x ≠ y.
Proof.
  intros Hnd Hk Hlt Hlast ->. rewrite last_lookup in Hlast.
  pose proof (NoDup_lookup _ _ _ _ Hnd Hk Hlast). lia.
Qed.

Lemma branch_taken_scan_inv sym evs0 i e f f' :
  sorted_timeline evs0 → tempos_nonneg evs0 →
  f_events f !! i = Some e →
  branch_taken sym i e f f' →
  scan_inv evs0 i (f_self f) (f_events f) →
  scan_inv evs0 (S i) (f_self f') (f_events f').
Proof.
  intros Hsorted Htempo He Hb (Htl & Hbal & Htpb & Hupb & Hcp & Hanchor).
  pose proof (branch_taken_preserves _ _ _ _ _ He Hb) as (Htl' & Htpb' & _).
  assert (Hsorted' : sorted_timeline (f_events f)).
  { by eapply sorted_timeline_timeline. }
  assert (Htempo' : tempos_nonneg (f_events f)).
  { by eapply tempos_nonneg_timeline. }
  assert (Hlater : ∀ j ej, (S i ≤ j)%nat → f_events f' !! j = Some ej →
                           tick_abs e ≤ tick_abs ej).
  { intros j ej Hj Hej.
    destruct (timeline_lookup _ _ _ _ Htl' Hej) as (ej' & Hej' & _ & <- & _).
    eapply (Hsorted' i j); [lia | done | done]. }
  assert (Hanchor' : ∀ j ej, (S i ≤ j)%nat → f_events f' !! j = Some ej →
                             tick_checkpoint (f_self f) ≤ tick_abs ej).
  { intros j ej Hj Hej.
    destruct (timeline_lookup _ _ _ _ Htl' Hej) as (ej' & Hej' & _ & <- & _).
    apply (Hanchor j); [lia | done]. }
  assert (Hweak : ∀ bs, Forall (λ b, (b < i)%nat) bs → Forall (λ b, (b < S i)%nat) bs).
  { intros bs Hbs. eapply Forall_impl; [exact Hbs|]. simpl. lia. }
  unfold scan_inv. rewrite Htpb'. split; [congruence|].
  destruct Hb as [n d Hm | t s Hm Hs | ch n v usec Hm Hl Hu
                 | ch n v usec Hm Hl Ho Hu | ch n v Hm Hl Ho
                 | ch n v bs b be usec Hm Hl Hbs Hb Hbe Hneg Hu
                 | ch n v Hm Hc]; simpl in *.
  - (* time signature *)
    split_and!; try done.
    destruct (balloons (f_self f)); [|done].
    destruct Hbal as (? & ? & ? & ?). split_and!; auto.
  - (* tempo *)
    apply change_tempo_Ok in Hs as (u & Hu & ->). simpl.
    assert (0 ≤ u).
    { eapply get_usec_at_nonneg; [done..| |exact Hu]. apply (Hanchor i); [lia|done]. }
    split_and!; try done.
    + destruct (balloons (f_self f)); [|done].
    destruct Hbal as (? & ? & ? & ?). split_and!; auto.
    + by apply (Htempo' i e t).
  - (* hit note *)
    split_and!; try done.
    destruct (balloons (f_self f)) as [bs|]; [|done].
    destruct Hbal as (Hne & Hnd & Hlt & Hterm). split_and!; auto.
    intros k b Hk Hlast. apply terminated_insert_ne; [|by eapply Hterm].
    rewrite Forall_forall in Hlt.
    pose proof (Hlt b ltac:(by eapply list_elem_of_lookup_2)). lia.
  - (* a balloon opens *)
    split_and!; try done.
    + by destruct (default [] (balloons (f_self f))).
    + apply NoDup_app. destruct (balloons (f_self f)) as [bs|]; simpl.
      * destruct Hbal as (Hne & Hnd & Hlt & Hterm). split; [done|].
        split; [|apply NoDup_singleton].
        intros b Hin ->%list_elem_of_singleton.
        rewrite Forall_forall in Hlt. pose proof (Hlt _ Hin). lia.
      * split; [apply NoDup_nil_2|]. split; [|apply NoDup_singleton].
        by intros ? ?%elem_of_nil.
    + apply Forall_app. split; [|apply Forall_singleton; lia].
      destruct (balloons (f_self f)) as [bs|]; simpl; [|done].
      apply Hweak, Hbal.
    + intros k b Hk Hlast. rewrite length_app in Hlast. simpl in Hlast.
      destruct (balloons (f_self f)) as [bs|] eqn:Hbs; simpl in *.
      * destruct Hbal as (Hne & Hnd & Hlt & Hterm).
        rewrite lookup_app_l in Hk by lia.
        rewrite Forall_forall in Hlt.
        pose proof (Hlt b ltac:(by eapply list_elem_of_lookup_2)).
        apply terminated_insert_ne; [lia|].
        destruct (decide (S k < length bs)%nat) as [Hin|Hout]; [by eapply Hterm|].
        apply balloon_is_open_false in Ho as [Hnone | (bs' & b' & be & Hbs' & Hb' & Hbe & Hend)];
          [congruence|].
        assert (bs' = bs) by congruence. subst bs'.
        rewrite last_lookup in Hb'.
        replace (Nat.pred (length bs)) with k in Hb' by lia.
        assert (b' = b) by congruence. subst b'. by exists be.
      * lia.
  - (* an open while one is open *)
    split_and!; try done.
    destruct (balloons (f_self f)); [|done].
    destruct Hbal as (? & ? & ? & ?). split_and!; auto.
  - (* a balloon closes *)
    split_and!; try done.
    rewrite Hbs in *. destruct Hbal as (Hne & Hnd & Hlt & Hterm). split_and!; auto.
    intros k b1 Hk Hlast. apply terminated_insert_ne; [|by eapply Hterm].
    by eapply NoDup_lookup_last.
  - (* a close with nothing open *)
    split_and!; try done.
    destruct (balloons (f_self f)); [|done].
    destruct Hbal as (? & ? & ? & ?). split_and!; auto.
Qed.

(** An invariant indexed by the position in a [range]. *)
Lemma for_each_seq_invariant {S : Type} (P : nat → S → Prop)
    (body : S → nat → outcome S) start n s s' :
  (∀ i s s', (start ≤ i < start + n)%nat → P i s → body s i = Ok s' → P (Datatypes.S i) s') →
  P start s → for_each body (seq start n) s = Ok s' → P (start + n)%nat s'.
Proof.
  revert start s. induction n as [|n IH]; intros start s Hstep HP H; simpl in H.
  - apply Ok_inj in H as <-. by rewrite Nat.add_0_r.
  - inv_ok H. replace (start + Datatypes.S n)%nat with (Datatypes.S start + n)%nat by lia.
    eapply IH; [| |exact H].
    + intros i s1 s2 Hi. apply Hstep. lia.
    + eapply Hstep; [|exact HP|exact Ha]. lia.
Qed.

Lemma for_each_range_invariant {S : Type} (P : nat → S → Prop)
    (body : S → nat → outcome S) start stop s s' :
  (start ≤ stop)%nat →
  (∀ i s s', (start ≤ i < stop)%nat → P i s → body s i = Ok s' → P (Datatypes.S i) s') →
  P start s → for_each body (range start stop) s = Ok s' → P stop s'.
Proof.
  intros Hle Hstep HP H. unfold range in H.
  assert (Hstop : stop = (start + (stop - start))%nat) by lia.
  rewrite Hstop.
  eapply for_each_seq_invariant; [|exact HP|exact H].
  intros i s1 s2 Hi. apply Hstep. lia.
Qed.

Lemma scan_event_scan_inv sym evs0 tick_beg tick_gcd f i f' :
  sorted_timeline evs0 → tempos_nonneg evs0 →
  scan_event sym tick_beg tick_gcd f i = Ok f' →
  scan_inv evs0 i (f_self f) (f_events f) →
  scan_inv evs0 (S i) (f_self f') (f_events f').
Proof.
  intros Hs Ht H Hinv. apply scan_event_Ok in H as (e & He & _ & Hb).
  eapply branch_taken_scan_inv in Hb; try done.
  - by rewrite advance_cells_events.
  - by rewrite advance_cells_self, advance_cells_events.
Qed.

Lemma scan_inv_start s evs : scan_start s evs → scan_inv evs 0 s evs.
Proof.
  intros (Hnone & Htpb & Hupb & Hcp & Hanchor). unfold scan_inv.
  rewrite Hnone. split_and!; try done.
  intros j e _ He. apply Hanchor. by eapply list_elem_of_lookup_2.
Qed.

Lemma scan_reaches_inv sym s0 evs0 i s evs :
  scan_start s0 evs0 → sorted_timeline evs0 → tempos_nonneg evs0 →
  scan_reaches sym s0 evs0 i s evs → scan_inv evs0 i s evs.
Proof.
  intros Hstart Hsorted Htempo. induction 1 as
    [ | i tick_beg tick_gcd f f' _ IH Hstep | i s evs e _ IH | i s evs s' _ IH Hadv].
  - by apply scan_inv_start.
  - by eapply scan_event_scan_inv.
  - destruct (sync_tsign_fields e s) as (Htpb & _ & Hbal & Hupb & Htcp & Hucp).
    unfold scan_inv in *. by rewrite Htpb, Hbal, Hupb, Htcp, Hucp.
  - apply advance_measure_Ok in Hadv as (n & _ & ->). done.
Qed.

Lemma scan_inv_one_open evs0 i s evs :
  scan_inv evs0 i s evs → one_open_balloon_at_most s evs.
Proof.
  intros (_ & Hbal & _) bs Hbs. rewrite Hbs in Hbal.
  destruct Hbal as (Hne & Hnd & _ & Hterm). split_and!; try done.
  intros k b Hk (e & He & Hneg).
  pose proof (lookup_lt_Some _ _ _ Hk) as Hlt.
  destruct (decide (S k < length bs)%nat) as [Hin|]; [|lia].
  destruct (Hterm k b Hk Hin) as (e' & He' & Hpos).
  assert (e' = e) by congruence. subst. lia.
Qed.

(** The runs of [scan_measure] and [scan_chart] stay within [scan_reaches]. *)
Lemma scan_measure_reaches sym s0 evs0 s evs start stop tja s' evs' tja' m :
  (start ≤ stop)%nat →
  scan_reaches sym s0 evs0 start s evs →
  scan_measure sym s evs start stop tja = Ok (s', evs', tja', m) →
  scan_reaches sym s0 evs0 stop s' evs'.
Proof.
  intros Hle Hreach H.
  apply scan_measure_Ok in H as (len & rels & f & _ & _ & Hloop & -> & -> & _).
  eapply (for_each_range_invariant
            (λ i f, scan_reaches sym s0 evs0 i (f_self f) (f_events f)));
    [exact Hle | | | exact Hloop]; [|done].
  intros i f1 f2 _ Hr Hstep. by eapply reaches_event.
Qed.

Lemma flush_measures_reaches sym s0 evs0 fuel tick i c c' :
  (c_i_measure_begin c ≤ i)%nat →
  scan_reaches sym s0 evs0 (c_i_measure_begin c) (c_self c) (c_events c) →
  flush_measures sym fuel tick i c = Ok c' →
  (c_i_measure_begin c' ≤ i)%nat ∧
  scan_reaches sym s0 evs0 (c_i_measure_begin c') (c_self c') (c_events c').
Proof.
  revert c. induction fuel as [|fuel IH]; intros c Hle Hreach H; [discriminate|].
  simpl in H. inv_ok H. case_decide as Hcond.
  - inv_ok H. destruct a0 as [[[s evs] tja] m]. inv_ok H.
    apply (IH (mkChart a0 evs tja i (c_measures c ++ [m]))); simpl; [lia| |exact H].
    eapply reaches_advance; [|exact Ha1].
    by eapply scan_measure_reaches.
  - by apply Ok_inj in H as <-.
Qed.

Lemma scan_chart_event_reaches sym s0 evs0 fuel i c c' :
  (c_i_measure_begin c ≤ i)%nat →
  scan_reaches sym s0 evs0 (c_i_measure_begin c) (c_self c) (c_events c) →
  scan_chart_event sym fuel c i = Ok c' →
  (c_i_measure_begin c' ≤ S i)%nat ∧
  scan_reaches sym s0 evs0 (c_i_measure_begin c') (c_self c') (c_events c').
Proof.
  intros Hle Hreach H. apply scan_chart_event_Ok in H as (e & c1 & He & Hf & ->).
  destruct (flush_measures_reaches _ _ _ _ _ _ _ _ Hle Hreach Hf) as [Hle1 Hr1].
  simpl. split; [lia|]. by apply reaches_sync.
Qed.

Lemma scan_chart_reaches sym fuel s0 evs0 tja s' evs' tja' ms :
  scan_chart sym fuel s0 evs0 tja = Ok (s', evs', tja', ms) →
  scan_reaches sym s0 evs0 (length evs0) s' evs'.
Proof.
  intros H. apply scan_chart_Ok in H as (c & m & Hloop & Hlast & _).
  assert (Hc : (c_i_measure_begin c ≤ length evs0)%nat ∧
               scan_reaches sym s0 evs0 (c_i_measure_begin c) (c_self c) (c_events c)).
  { eapply (for_each_range_invariant
              (λ i c, (c_i_measure_begin c ≤ i)%nat ∧
                      scan_reaches sym s0 evs0 (c_i_measure_begin c)
                        (c_self c) (c_events c)));
      [| | |exact Hloop]; [lia| |].
    - intros i c1 c2 _ [Hle Hr] Hstep. by eapply scan_chart_event_reaches.
    - simpl. split; [lia | constructor]. }
  destruct Hc as [Hle Hr]. by eapply scan_measure_reaches.
Qed.

(** C9: in every state a scan passes through, the balloon list holds at
    most one unterminated record ([usec_end_abs < 0]) and it is the last
    one appended.  A note-on appends a record (unterminated, for the
    event itself) only when no balloon is open, and changes nothing when
    one is; a note-off terminates the last record when it is open, and
    changes nothing otherwise; timing events never touch the list.  The
    final state of [scan_chart] is one of the states covered. *)
Theorem C9_one_open_balloon sym s0 evs0 :
  scan_start s0 evs0 → sorted_timeline evs0 → tempos_nonneg evs0 →
  (∀ i s evs, scan_reaches sym s0 evs0 i s evs → one_open_balloon_at_most s evs) ∧
  (∀ i tick_beg tick_gcd f f' e,
     scan_reaches sym s0 evs0 i (f_self f) (f_events f) →
     scan_event sym tick_beg tick_gcd f i = Ok f' →
     f_events f !! i = Some e →
     is_long_note sym = true →
     match msg e with
     | note_on_msg _ _ _ =>
         (balloon_is_open (f_self f) (f_events f) = Ok true ∧
          balloons (f_self f') = balloons (f_self f) ∧
          f_events f' = f_events f) ∨
         (balloon_is_open (f_self f) (f_events f) = Ok false ∧
          balloons (f_self f') = Some (default [] (balloons (f_self f)) ++ [i]) ∧
          unterminated (f_events f') i)
     | note_off_msg _ _ _ =>
         (∃ bs b, balloons (f_self f) = Some bs ∧ last bs = Some b ∧
                  unterminated (f_events f) b ∧
                  balloons (f_self f') = Some bs ∧
                  terminated (f_events f') b) ∨
         (balloon_is_open (f_self f) (f_events f) = Ok false ∧
          balloons (f_self f') = balloons (f_self f) ∧
          f_events f' = f_events f)
     | _ => balloons (f_self f') = balloons (f_self f) ∧ f_events f' = f_events f
     end) ∧
  (∀ fuel tja s' evs' tja' ms,
     scan_chart sym fuel s0 evs0 tja = Ok (s', evs', tja', ms) →
     scan_reaches sym s0 evs0 (length evs0) s' evs' ∧
     one_open_balloon_at_most s' evs').
Proof.
  intros Hstart Hsorted Htempo.
  assert (Hinv : ∀ i s evs, scan_reaches sym s0 evs0 i s evs →
                            one_open_balloon_at_most s evs).
  { intros i s evs Hr. eapply scan_inv_one_open. by eapply scan_reaches_inv. }
  split_and!; [exact Hinv | |].
  - intros i tick_beg tick_gcd f f' e Hr Hstep He Hlong.
    pose proof (scan_reaches_inv _ _ _ _ _ _ Hstart Hsorted Htempo Hr)
      as (_ & _ & Htpb & Hupb & Hcp & Hanchor).
    apply scan_event_Ok in Hstep as (e' & He' & _ & Hb).
    assert (e' = e) by congruence. subst e'.
    remember (advance_cells ((tick_abs e - tick_beg) / tick_gcd) f) as f1 eqn:Hf1.
    assert (Hs1 : f_self f1 = f_self f) by (subst f1; apply advance_cells_self).
    assert (He1 : f_events f1 = f_events f) by (subst f1; apply advance_cells_events).
    destruct Hb as [n d Hm | t s Hm Hs | ch n v usec Hm Hl Hu
                   | ch n v usec Hm Hl Ho Hu | ch n v Hm Hl Ho
                   | ch n v bs b be usec Hm Hl Hbs Hb Hbe Hneg Hu
                   | ch n v Hm Hc]; rewrite Hm; simpl;
      rewrite ?Hs1, ?He1 in *.
    + done.
    + apply change_tempo_Ok in Hs as (u & _ & ->). done.
    + congruence.
    + right. split_and!; try done.
      eexists. split; [apply list_lookup_insert_eq; by eapply lookup_lt_Some|]. simpl. lia.
    + left. done.
    + left. exists bs, b. split_and!; try done.
      * by exists be.
      * eexists. split; [apply list_lookup_insert_eq; by eapply lookup_lt_Some|].
        simpl. eapply get_usec_at_nonneg; [done..| |exact Hu].
        by apply (Hanchor i).
    + right. destruct Hc as [Hc|Hc]; [congruence | done].
  - intros fuel tja s' evs' tja' ms Hscan.
    pose proof (scan_chart_reaches _ _ _ _ _ _ _ _ _ Hscan) as Hr. eauto.
Qed.

(** Lookups in a timeline written out, taken apart position by position. *)
Ltac small_timeline :=
  intros;
  repeat match goal with
  | H : (_ :: _) !! ?i = Some _ |- _ =>
      destruct i; simpl in H; [apply (inj Some) in H; subst|]
  | H : [] !! _ = Some _ |- _ => discriminate H
  | H : _ ∈ _ :: _ |- _ => apply elem_of_cons in H as [-> | H]
  | H : _ ∈ [] |- _ => by apply elem_of_nil in H
  end;
  simpl in *; try discriminate; try lia; try congruence.

Lemma C9_one_open_balloon_witness :
  let s0 := init_state 480 in
  let evs0 := [new_event (note_on_msg 0 69 100) 0;
               new_event (note_off_msg 0 69 64) 240] in
  scan_start s0 evs0 ∧ sorted_timeline evs0 ∧ tempos_nonneg evs0 ∧
  ∃ s' evs' tja' ms,
    scan_chart "7" 241 s0 evs0 None = Ok (s', evs', tja', ms) ∧
    scan_reaches "7" s0 evs0 2 s' evs' ∧
    one_open_balloon_at_most s' evs'.
Proof.
  intros s0 evs0.
  assert (H1 : scan_start s0 evs0).
  { unfold scan_start, evs0. split_and!; simpl; try done. small_timeline. }
  assert (H2 : sorted_timeline evs0) by (unfold sorted_timeline, evs0; small_timeline).
  assert (H3 : tempos_nonneg evs0) by (unfold tempos_nonneg, evs0; small_timeline).
  split_and!; try done.
  destruct (C9_one_open_balloon "7" s0 evs0 H1 H2 H3) as (_ & _ & Hfinal).
  destruct (scan_chart_safe "7" 241 s0 evs0 None) as (s' & evs' & tja' & ms & Hscan).
  - by apply runnable_init.
  - vm_compute. lia.
  - exists s', evs', tja', ms. split; [done|]. by apply (Hfinal 241%nat None s' evs' tja' ms).
Defined.

(** ** C3: the silent scan and the emission scan *)




Section Simulation.

Variable Rs : sink → sink → Prop.
Hypothesis Rs_emit : ∀ item t t', Rs t t' → Rs (emit item t) (emit item t').






End Simulation.


Section SimulationChart.

Variable Rs : sink → sink → Prop.
Hypothesis Rs_emit : ∀ item t t', Rs t t' → Rs (emit item t) (emit item t').






End SimulationChart.



(** *** Counting the close symbols *)


Lemma count_closes_app out out' :
  count_closes (out ++ out') = (count_closes out + count_closes out')%nat.
Proof. unfold count_closes. by rewrite filter_app, length_app. Qed.







Section Covered.

Variables (sym : ascii) (s0 : ChartState) (evs0 : list ChartEvent).
Hypothesis sym_not_close : sym ≠ "8"%char.
Hypothesis start_ok : scan_start s0 evs0.
Hypothesis sorted_ok : sorted_timeline evs0.
Hypothesis tempos_ok : tempos_nonneg evs0.






End Covered.






(** ** C6: the slot a new note takes *)

Lemma find_free_slot_Some store gap note tick slots i0 i b e_ :
  find_free_slot store gap note tick slots i0 = Some (i, b, e_) →
  ∃ k e, i = (i0 + k)%nat ∧ slots !! k = Some b ∧ store !! b = Some e ∧
         e_ = cut_same_note gap note tick e ∧ is_free tick e_ ∧
         ∀ j bj ej, (j < k)%nat → slots !! j = Some bj → store !! bj = Some ej →
                    ¬ is_free tick (cut_same_note gap note tick ej).
Proof.
  revert i0. induction slots as [|b0 slots IH]; intros i0 H; simpl in H; [done|].
  destruct (store !! b0) as [e0|] eqn:He0.
  - case_decide as Hfree.
    + injection H as <- <- <-. exists 0%nat, e0.
      split; [lia|]. split_and!; try done. intros j bj ej Hj. lia.
    + destruct (IH (S i0) H) as (k & e & -> & Hk & He & -> & Hf & Hbefore).
      exists (S k), e. split; [lia|]. split_and!; try done.
      intros [|j] bj ej Hj Hbj Hej; simpl in Hbj.
      * injection Hbj as <-. congruence.
      * apply (Hbefore j bj ej); [lia | done | done].
  - destruct (IH (S i0) H) as (k & e & -> & Hk & He & -> & Hf & Hbefore).
    exists (S k), e. split; [lia|]. split_and!; try done.
    intros [|j] bj ej Hj Hbj Hej; simpl in Hbj.
    + injection Hbj as <-. congruence.
    + apply (Hbefore j bj ej); [lia | done | done].
Qed.

Lemma find_free_slot_None store gap note tick slots i0 :
  find_free_slot store gap note tick slots i0 = None →
  ∀ j bj ej, slots !! j = Some bj → store !! bj = Some ej →
             ¬ is_free tick (cut_same_note gap note tick ej).
Proof.
  revert i0. induction slots as [|b0 slots IH]; intros i0 H j bj ej Hbj Hej;
    simpl in H; [done|].
  destruct j as [|j]; simpl in Hbj.
  - injection Hbj as <-. rewrite Hej in H. by case_decide.
  - destruct (store !! b0) as [e0|]; [case_decide; [done|]|]; by eapply IH.
Qed.

Lemma cut_same_note_other gap note tick e :
  msg_note (msg e) ≠ Some note → cut_same_note gap note tick e = e.
Proof. intros H. unfold cut_same_note. by case_decide. Qed.

Lemma cut_same_note_end gap note tick e :
  msg_note (msg e) = Some note →
  tick_end_abs (cut_same_note gap note tick e) =
    Z.max (tick_abs e + gap)
      (Z.min (if decide (usec_end_abs e = -1) then tick else tick_end_abs e)
         (tick - gap)) ∧
  usec_end_abs (cut_same_note gap note tick e) ≠ -1.
Proof.
  intros H. unfold cut_same_note. case_decide; [|done].
  case_decide; simpl; split; done.
Qed.

(** C6, as the code has it.  In sustain mode a new note-on examines the
    slots of its channel in index order, each occupant through a copy
    that is cut when it plays the same note, and takes the lowest-indexed
    slot whose examined occupant is ended with an end tick strictly
    before the new start; the cut is written to the occupant of the slot
    taken, and to no other; with no such slot the note is appended as a
    new polyphony position and no occupant is changed.  The end written
    to a cut occupant is
    [max(start + gap, min(rawEnd, newStart - gap))], with [rawEnd] the
    new start when the occupant was not closed. *)
Theorem C6_slot_for_new_note sym gap ch note vel tick L :
  is_long_note sym = true →
  let slots := default [] (on_notes L !! ch) in
  let a := length (notes L) in
  let L' := note_on sym gap ch note vel tick L in
  notes L' !! a =
    Some (mkChartEvent (note_on_msg ch note vel) tick (tick + gap) (-1) (-1)) ∧
  ((∃ i b e,
      slots !! i = Some b ∧ notes L !! b = Some e ∧
      is_free tick (cut_same_note gap note tick e) ∧
      (∀ j bj ej, (j < i)%nat → slots !! j = Some bj → notes L !! bj = Some ej →
                  ¬ is_free tick (cut_same_note gap note tick ej)) ∧
      on_notes L' !! ch = Some (<[i := a]> slots) ∧
      note_events L' !! (ch, i) =
        Some (default [] (note_events L !! (ch, i)) ++ [a]) ∧
      (∃ e', notes L' !! b = Some e' ∧
             msg e' = msg e ∧ tick_abs e' = tick_abs e ∧
             usec_end_abs e' ≠ -1 ∧ tick_end_abs e' < tick ∧
             (msg_note (msg e) = Some note →
              tick_end_abs e' =
                Z.max (tick_abs e + gap)
                  (Z.min (if decide (usec_end_abs e = -1) then tick
                          else tick_end_abs e) (tick - gap))) ∧
             (msg_note (msg e) ≠ Some note → e' = e)) ∧
      (∀ c, c ≠ b → (c < a)%nat → notes L' !! c = notes L !! c)) ∨
   ((∀ j bj ej, slots !! j = Some bj → notes L !! bj = Some ej →
                ¬ is_free tick (cut_same_note gap note tick ej)) ∧
    on_notes L' !! ch = Some (slots ++ [a]) ∧
    note_events L' !! (ch, length slots) =
      Some (default [] (note_events L !! (ch, length slots)) ++ [a]) ∧
    (∀ c, (c < a)%nat → notes L' !! c = notes L !! c))).
Proof.
  intros Hlong slots a L'. subst L'. unfold note_on. fold slots. fold a.
  rewrite Hlong. simpl.
  destruct (find_free_slot (notes L) gap note tick slots 0)
    as [[[i b] e_]|] eqn:Hfind.
  - apply find_free_slot_Some in Hfind
      as (k & e & -> & Hk & He & -> & Hfree & Hbefore).
    simpl in *. pose proof (lookup_lt_Some _ _ _ He) as Hb.
    split.
    { rewrite lookup_app_r; rewrite length_alter; [|done].
      by rewrite Nat.sub_diag. }
    left. exists k, b, e. split_and!; try done.
    + by rewrite lookup_insert_eq.
    + unfold append_to_lane. by rewrite lookup_insert_eq.
    + eexists. split.
      { rewrite lookup_app_l by (by rewrite length_alter).
        rewrite list_lookup_alter_eq, He. done. }
      destruct Hfree as [Hended Hbeforetick]. simpl. split_and!; try done; [lia| |].
      * intros Hsame. by apply cut_same_note_end.
      * intros Hother. rewrite cut_same_note_other by done. by destruct e.
    + intros c Hc Hlt. rewrite lookup_app_l by (by rewrite length_alter).
      by rewrite list_lookup_alter_ne.
  - pose proof (find_free_slot_None _ _ _ _ _ _ Hfind) as Hnone. simpl.
    split.
    { rewrite lookup_app_r by done. by rewrite Nat.sub_diag. }
    right. split_and!; try done.
    + by rewrite lookup_insert_eq.
    + unfold append_to_lane. by rewrite lookup_insert_eq.
    + intros c Hlt. by rewrite lookup_app_l.
Qed.

(** ** C7: how long a note is when it reaches the quantizer *)







Lemma last_Some_ne_nil {A : Type} (l : list A) x : last l = Some x → l ≠ [].
Proof. by destruct l. Qed.





Lemma cut_same_note_tick gap note tick e :
  tick_abs (cut_same_note gap note tick e) = tick_abs e ∧
  msg (cut_same_note gap note tick e) = msg e.
Proof. unfold cut_same_note. repeat case_decide; done. Qed.










(** ** C8: the balloon count *)




(** ** Instances and counterexamples for C3, C6 and C7 *)



Lemma C6_slot_for_new_note_witness :
  let L := assign_lanes "7" 10 [new_event (note_on_msg 0 60 100) 0;
                                new_event (note_off_msg 0 60 64) 100] in
  is_long_note "7" = true ∧
  notes (note_on "7" 10 0 62 100 101 L) !! 1%nat =
    Some (mkChartEvent (note_on_msg 0 62 100) 101 111 (-1) (-1)).
Proof.
  intros L. split; [reflexivity|].
  destruct (C6_slot_for_new_note "7" 10 0 62 100 101 L eq_refl) as [Hnew _].
  exact Hnew.
Defined.

(** With a gap of 10 ticks: a note of pitch 60 closed at tick 100 holds
    slot 0, and a note of pitch 62 starting at tick 101 takes that slot,
    one tick after the occupant's end.  And with pitch 60 closed in slot 0
    and pitch 62 open in slot 1 (from tick 5, end 15), a new note of pitch
    62 at tick 100 takes slot 0 and leaves the open occupant of slot 1 as
    it was, not cut to [max(5 + 10, min(100, 100 - 10))]. *)
Lemma C6_counterexample :
  let on60 := new_event (note_on_msg 0 60 100) 0 in
  let L := assign_lanes "7" 10 [on60; new_event (note_off_msg 0 60 64) 100] in
  let L' := note_on "7" 10 0 62 100 101 L in
  let M := assign_lanes "7" 10 [on60; new_event (note_on_msg 0 62 100) 5;
                                new_event (note_off_msg 0 60 64) 20] in
  let M' := note_on "7" 10 0 62 100 100 M in
  (on_notes L !! 0 = Some [0%nat] ∧
   notes L !! 0%nat = Some (mkChartEvent (note_on_msg 0 60 100) 0 100 (-1) (-2)) ∧
   on_notes L' !! 0 = Some [1%nat] ∧
   note_events L' !! (0, 0%nat) = Some [0%nat; 1%nat] ∧
   notes L' !! 0%nat = Some (mkChartEvent (note_on_msg 0 60 100) 0 100 (-1) (-2)) ∧
   101 - 10 < 100) ∧
  (on_notes M !! 0 = Some [0%nat; 1%nat] ∧
   notes M !! 1%nat = Some (mkChartEvent (note_on_msg 0 62 100) 5 15 (-1) (-1)) ∧
   on_notes M' !! 0 = Some [2%nat; 1%nat] ∧
   notes M' !! 1%nat = Some (mkChartEvent (note_on_msg 0 62 100) 5 15 (-1) (-1)) ∧
   15 < Z.max (5 + 10) (Z.min 100 (100 - 10))).
Proof.
  split; split_and!; try (vm_compute; reflexivity); lia.
Qed.


